(** * Signed asset URLs: the asset-key cache and the URL signer of [sign-url.js]

    A shallow embedding of [src/sign-url.js]:
    - [createAssetKey], the request it sends and how its promise settles;
    - [createCachedAssetKey] over the module-level [assetKeyCache];
    - [generateSignedToken], [generateSignedUrl] and [signUrl].

    Conventions of the embedding.
    - Timestamps are integral milliseconds ([Date.now()] returns an integer),
      so JS numbers are modelled as [Z] plus [NaN]; on integers of that size
      the arithmetic of the source is exact.  A parameter the source compares
      or tests for truthiness is a [value]: [undefined] or a number.
    - [Date.now()] is an explicit argument [now] of the function that reads it.
    - A promise is an index into the list of promise cells of the state; an
      object literal [{ expiresAtMs, promise }] gets a fresh reference
      [item_ref], and [===] on cache items compares references.
    - [fetch], [jwt.sign] and [URL] belong to libraries and to the platform;
      they enter as the outcome of a request, as Section variables, and (for
      [URLSearchParams.set]) as the URL Standard defines the operation. *)

From Stdlib Require Import ZArith Lia.
From stdpp Require Import base gmap list strings.

Local Open Scope Z_scope.

(** ** JavaScript values the source computes with *)

Inductive number :=
| Fin (z : Z)
| NaN.

Inductive value :=
| Undefined
| Num (n : number).

Global Instance number_eq_dec : EqDecision number.
Proof. solve_decision. Defined.

Global Instance value_eq_dec : EqDecision value.
Proof. solve_decision. Defined.

(** [ToNumber]: [undefined] converts to [NaN]. *)
Definition ToNumber (v : value) : number :=
  match v with
  | Undefined => NaN
  | Num n => n
  end.

(** [a < b] on numbers: any comparison with [NaN] is false. *)
Definition number_lt (a b : number) : bool :=
  match a, b with
  | Fin x, Fin y => x <? y
  | _, _ => false
  end.

(** The relational operators of the source, [a < b], [a > b] and (for
    statements about the cache) [a >= b]. *)
Definition js_lt (a b : value) : bool := number_lt (ToNumber a) (ToNumber b).
Definition js_gt (a b : value) : bool := number_lt (ToNumber b) (ToNumber a).
Definition js_ge (a b : value) : bool :=
  match ToNumber a, ToNumber b with
  | Fin x, Fin y => y <=? x
  | _, _ => false
  end.

(** [ToBoolean]: [undefined], [0] and [NaN] are falsy. *)
Definition ToBoolean (v : value) : bool :=
  match v with
  | Undefined => false
  | Num NaN => false
  | Num (Fin z) => negb (z =? 0)
  end.

(** [Number.MAX_SAFE_INTEGER], [2^53 - 1]: up to it in magnitude every
    integer is a JS number, and [floor_div] below is what the source
    computes. *)
Definition MAX_SAFE_INTEGER : Z := 9007199254740991.

(** [Math.floor(v / d)] for a positive integer [d].  The quotient is taken
    in [Z]; the source takes it in doubles, which gives the same result for
    [d = 1000] as long as the dividend is at most [MAX_SAFE_INTEGER] in
    magnitude (the rounding of the quotient is then below 1/1000), and may
    not beyond. *)
Definition floor_div (v : value) (d : Z) : number :=
  match ToNumber v with
  | Fin z => Fin (z / d)
  | NaN => NaN
  end.

(** [48 * 60 * 60 * 1000], the longest validity of an asset key in ms. *)
Definition MAX_VALIDITY_MS : Z := 48 * 60 * 60 * 1000.

(** ** Errors and completions *)

Inductive error :=
| FailedToCreateAssetKey (status : Z)
    (* `Failed to create asset key: ${response.status}` *)
| CannotFetchSoFar (minExpiresAtMs : value) (expiresAtMs : Z)
    (* `Cannot fetch an asset key so far in the future: ${min} > ${exp}` *)
| InvalidURL (input : string)
    (* the TypeError of `new URL(url)` *)
| External (msg : string).
    (* a failure raised inside fetch, response.json() or jwt.sign *)

Inductive completion (A : Type) :=
| Return (a : A)
| Throw (e : error).

Arguments Return {A} a.
Arguments Throw {A} e.

Global Instance error_eq_dec : EqDecision error.
Proof. solve_decision. Defined.

(** ** Part 1/5: [createAssetKey] *)

Record AssetKey := mkAssetKey {
  policy : string;
  secret : string;
}.

(** What [createAssetKey] hands to [fetch]. *)
Record Request := mkRequest {
  req_url : string;
  req_method : string;
  req_expiresAt : number;       (* body: JSON.stringify({ expiresAt }) *)
  req_contentType : string;
  req_authorization : string;
}.

(** The request of [createAssetKey(host, accessToken, spaceId, environmentId,
    expiresAtMs)], sent before the function first suspends. *)
Definition createAssetKey_request (now : Z)
    (host accessToken spaceId environmentId : string)
    (expiresAtMs : value) : Request :=
  let expiresAtMs :=
    match expiresAtMs with
    | Undefined => Num (Fin (now + MAX_VALIDITY_MS))
    | v => v
    end in
  {| req_url := "https://" +:+ host +:+ "/spaces/" +:+ spaceId
                +:+ "/environments/" +:+ environmentId +:+ "/asset_keys";
     req_method := "POST";
     req_expiresAt := floor_div expiresAtMs 1000;
     req_contentType := "application/json";
     req_authorization := "Bearer " +:+ accessToken |}.

(** How the request ends: [fetch] rejects, or it yields a response whose
    [json()] is the parsed body or a parse failure. *)
Record Response := mkResponse {
  ok : bool;
  status : Z;
  json : completion AssetKey;
}.

Inductive fetch_outcome :=
| NetworkFailure (e : error)
| Responded (r : Response).

(** The rest of [createAssetKey] after [await fetch(...)]. *)
Definition createAssetKey_settle (o : fetch_outcome) : completion AssetKey :=
  match o with
  | NetworkFailure e => Throw e
  | Responded r =>
      if negb (ok r) then Throw (FailedToCreateAssetKey (status r))
      else json r
  end.

(** ** Part 2/5: the cache and [createCachedAssetKey] *)

Inductive promise_state :=
| Pending
| Fulfilled (k : AssetKey)
| Rejected (e : error).

Global Instance AssetKey_eq_dec : EqDecision AssetKey.
Proof. solve_decision. Defined.

Global Instance promise_state_eq_dec : EqDecision promise_state.
Proof. solve_decision. Defined.

(** The object [{ expiresAtMs, promise }]; [item_ref] is its identity. *)
Record CacheItem := mkCacheItem {
  item_ref : nat;
  expiresAtMs : Z;
  promise : nat;
}.

(** One cell per promise [createAssetKey(...).catch(...)]: the request that
    was sent for it, what the [catch] closure captured ([cacheKey] and the
    variable [cacheItem], which holds the installed item by the time the
    handler can run), and the state of the promise. *)
Record Fetch := mkFetch {
  request : Request;
  catch_cacheKey : string;
  catch_cacheItem : nat;
  settled : promise_state;
}.

Record State := mkState {
  assetKeyCache : gmap string CacheItem;
  promises : list Fetch;
  next_ref : nat;
}.

(** [const assetKeyCache = new Map()] and nothing requested yet. *)
Definition init : State :=
  {| assetKeyCache := ∅; promises := []; next_ref := 0 |}.

Definition cacheKey_of (host spaceId environmentId : string) : string :=
  host +:+ ":" +:+ spaceId +:+ ":" +:+ environmentId.

(** The body of the [if] of [createCachedAssetKey]. *)
Definition fetchAndInstall (now : Z)
    (host accessToken spaceId environmentId : string)
    (minExpiresAtMs : value) (s : State) : completion nat * State :=
  let cacheKey := cacheKey_of host spaceId environmentId in
  let expiresAtMs := now + MAX_VALIDITY_MS in
  if js_gt minExpiresAtMs (Num (Fin expiresAtMs)) then
    (Throw (CannotFetchSoFar minExpiresAtMs expiresAtMs), s)
  else
    let promise := length (promises s) in
    let cell :=
      {| request := createAssetKey_request now host accessToken spaceId
                      environmentId (Num (Fin expiresAtMs));
         catch_cacheKey := cacheKey;
         catch_cacheItem := next_ref s;
         settled := Pending |} in
    let cacheItem :=
      {| item_ref := next_ref s;
         expiresAtMs := expiresAtMs;
         promise := promise |} in
    (Return promise,
     {| assetKeyCache := <[cacheKey := cacheItem]> (assetKeyCache s);
        promises := promises s ++ [cell];
        next_ref := S (next_ref s) |}).

(** [createCachedAssetKey]: the promise it returns (an index into
    [promises]) or the error it throws, and the state it leaves. *)
Definition createCachedAssetKey (now : Z)
    (host accessToken spaceId environmentId : string)
    (minExpiresAtMs : value) (s : State) : completion nat * State :=
  let cacheKey := cacheKey_of host spaceId environmentId in
  match assetKeyCache s !! cacheKey with
  | None =>
      fetchAndInstall now host accessToken spaceId environmentId
        minExpiresAtMs s
  | Some cacheItem =>
      if js_lt (Num (Fin (expiresAtMs cacheItem))) minExpiresAtMs then
        fetchAndInstall now host accessToken spaceId environmentId
          minExpiresAtMs s
      else (Return (promise cacheItem), s)
  end.

(** The [catch] handler of promise [p]: clear the cache item if the item
    stored now is the one this fetch installed. *)
Definition catch_handler (cell : Fetch) (cache : gmap string CacheItem)
    : gmap string CacheItem :=
  match cache !! catch_cacheKey cell with
  | Some curCacheItem =>
      if decide (item_ref curCacheItem = catch_cacheItem cell)
      then delete (catch_cacheKey cell) cache
      else cache
  | None => cache
  end.

(** The request behind promise [p] ends with outcome [o]: the promise of
    [createAssetKey] settles, and so does the promise derived by [catch],
    after running the handler when it is a rejection.  A promise settles
    once; later outcomes are ignored. *)
Definition settle (p : nat) (o : fetch_outcome) (s : State) : State :=
  match promises s !! p with
  | Some cell =>
      match settled cell with
      | Pending =>
          match createAssetKey_settle o with
          | Return k =>
              {| assetKeyCache := assetKeyCache s;
                 promises :=
                   <[p := {| request := request cell;
                             catch_cacheKey := catch_cacheKey cell;
                             catch_cacheItem := catch_cacheItem cell;
                             settled := Fulfilled k |}]> (promises s);
                 next_ref := next_ref s |}
          | Throw err =>
              {| assetKeyCache := catch_handler cell (assetKeyCache s);
                 promises :=
                   <[p := {| request := request cell;
                             catch_cacheKey := catch_cacheKey cell;
                             catch_cacheItem := catch_cacheItem cell;
                             settled := Rejected err |}]> (promises s);
                 next_ref := next_ref s |}
          end
      | _ => s
      end
  | None => s
  end.

(** [await] on promise [p]: nothing while it is pending. *)
Definition await (s : State) (p : nat) : option (completion AssetKey) :=
  match promises s !! p with
  | Some cell =>
      match settled cell with
      | Pending => None
      | Fulfilled k => Some (Return k)
      | Rejected e => Some (Throw e)
      end
  | None => None
  end.

(** The requests sent so far, oldest first. *)
Definition network (s : State) : list Request := request <$> promises s.

(** The promises for [cacheKey] whose request is still in flight. *)
Definition in_flight (cacheKey : string) (s : State) : list Fetch :=
  filter (fun cell => catch_cacheKey cell = cacheKey ∧ settled cell = Pending)
         (promises s).

(** Calls of [createCachedAssetKey] for one scope, one after the other, each
    with its own clock reading and minimum expiry; no request ends in
    between. *)
Fixpoint createCachedAssetKey_all
    (host accessToken spaceId environmentId : string)
    (calls : list (Z * value)) (s : State) : list (completion nat) * State :=
  match calls with
  | [] => ([], s)
  | (now, minExpiresAtMs) :: rest =>
      let '(r, s1) :=
        createCachedAssetKey now host accessToken spaceId environmentId
          minExpiresAtMs s in
      let '(rs, s2) :=
        createCachedAssetKey_all host accessToken spaceId environmentId
          rest s1 in
      (r :: rs, s2)
  end.

(** The state after [createCachedAssetKey] has started a fetch and
    installed its item. *)
Definition installed (now : Z)
    (host accessToken spaceId environmentId : string) (s : State) : State :=
  {| assetKeyCache :=
       <[cacheKey_of host spaceId environmentId :=
           {| item_ref := next_ref s;
              expiresAtMs := now + MAX_VALIDITY_MS;
              promise := length (promises s) |}]> (assetKeyCache s);
     promises :=
       promises s ++
       [{| request := createAssetKey_request now host accessToken spaceId
                        environmentId (Num (Fin (now + MAX_VALIDITY_MS)));
           catch_cacheKey := cacheKey_of host spaceId environmentId;
           catch_cacheItem := next_ref s;
           settled := Pending |}];
     next_ref := S (next_ref s) |}.

(** The states of the module: [reachable now s] when [s] arises from the
    empty cache by calls of [createCachedAssetKey] and by requests ending,
    in any order, with clock readings that never decrease and are at most
    [now]. *)
Inductive reachable : Z -> State -> Prop :=
| reachable_init now :
    reachable now init
| reachable_later now now' s :
    reachable now s -> now <= now' -> reachable now' s
| reachable_call now host accessToken spaceId environmentId minExpiresAtMs s :
    reachable now s ->
    reachable now
      (createCachedAssetKey now host accessToken spaceId environmentId
         minExpiresAtMs s).2
| reachable_settle now p o s :
    reachable now s ->
    reachable now (settle p o s).

(** What every reachable state satisfies. *)
Record consistent (now : Z) (s : State) : Prop := mkConsistent {
  (* a cached item was made at most [now], by the fetch whose promise it
     holds, and that promise has not been rejected *)
  cached_item :
    forall key item, assetKeyCache s !! key = Some item ->
      expiresAtMs item <= now + MAX_VALIDITY_MS /\
      exists cell, promises s !! promise item = Some cell /\
        catch_cacheItem cell = item_ref item /\
        catch_cacheKey cell = key /\
        forall e, settled cell <> Rejected e;
  (* references are handed out in order *)
  refs_allocated :
    forall p cell, promises s !! p = Some cell ->
      (catch_cacheItem cell < next_ref s)%nat;
  (* two fetches never installed the same object *)
  refs_distinct :
    forall p q cp cq, promises s !! p = Some cp -> promises s !! q = Some cq ->
      catch_cacheItem cp = catch_cacheItem cq -> p = q;
}.

(** The same without a clock: [arises s] when [s] arises from the empty
    cache by calls of [createCachedAssetKey] at any clock readings, also
    ones that go back, and by requests ending, in any order. *)
Inductive arises : State -> Prop :=
| arises_init :
    arises init
| arises_call now host accessToken spaceId environmentId minExpiresAtMs s :
    arises s ->
    arises
      (createCachedAssetKey now host accessToken spaceId environmentId
         minExpiresAtMs s).2
| arises_settle p o s :
    arises s ->
    arises (settle p o s).

(** ** Part 3/5: [generateSignedToken] *)

(** The payload [{ sub, exp }] and the options [{ algorithm }] given to
    [jwt.sign]. *)
Record Payload := mkPayload {
  sub : string;
  exp : value;
}.

Record SignOptions := mkSignOptions {
  algorithm : string;
}.

Global Instance Payload_eq_dec : EqDecision Payload.
Proof. solve_decision. Defined.

(** The object literal built by [generateSignedToken]: [exp] is
    [expiresAtMs ? Math.floor(expiresAtMs / 1000) : undefined]. *)
Definition signedTokenPayload (urlWithoutQueryParams : string)
    (expiresAtMs : value) : Payload :=
  let exp :=
    if ToBoolean expiresAtMs then Num (floor_div expiresAtMs 1000)
    else Undefined in
  {| sub := urlWithoutQueryParams; exp := exp |}.

(** ** Part 4/5: URLs *)

(** A parsed URL, as far as the source reads or writes it: [origin] and
    [pathname] are read, [searchParams] is written, the rest ([userinfo],
    [hash]) only passes through [toString]. *)
Record URL := mkURL {
  origin : string;
  userinfo : string;
  pathname : string;
  searchParams : list (string * string);
  hash : string;
}.

(** [URLSearchParams.prototype.set(name, value)] of the URL Standard: if the
    list has tuples named [name], set the value of the first one and remove
    the others; otherwise append a new tuple. *)
Fixpoint searchParams_set (name val : string)
    (l : list (string * string)) : list (string * string) :=
  match l with
  | [] => [(name, val)]
  | (k, v) :: rest =>
      if decide (k = name)
      then (name, val) :: filter (fun kv => kv.1 <> name) rest
      else (k, v) :: searchParams_set name val rest
  end.

(** [url.searchParams.set(name, val)]. *)
Definition URL_set (name val : string) (u : URL) : URL :=
  {| origin := origin u;
     userinfo := userinfo u;
     pathname := pathname u;
     searchParams := searchParams_set name val (searchParams u);
     hash := hash u |}.

(** The query parameters called [name], and all the others. *)
Definition params_named (name : string) (l : list (string * string))
    : list (string * string) :=
  filter (fun kv => kv.1 = name) l.

Definition params_except (names : list string) (l : list (string * string))
    : list (string * string) :=
  filter (fun kv => kv.1 ∉ names) l.

(** Sequencing of computations that may throw. *)
Global Instance completion_bind : MBind completion :=
  fun A B (k : A -> completion B) (c : completion A) =>
    match c with
    | Return a => k a
    | Throw e => Throw e
    end.

Section Signing.

(** What a library call may read besides its arguments (the clock, for one). *)
Variable World : Type.

(** [jwt.sign(payload, secretOrPrivateKey, options)] of [jsonwebtoken]. *)
Variable jwt_sign : World -> Payload -> string -> SignOptions -> completion string.

(** [new URL(url)], which throws on an invalid URL, and [url.toString()]. *)
Variable URL_new : string -> completion URL.
Variable URL_toString : URL -> string.

Definition generateSignedToken (w : World)
    (secret urlWithoutQueryParams : string) (expiresAtMs : value)
    : completion string :=
  jwt_sign w (signedTokenPayload urlWithoutQueryParams expiresAtMs) secret
    {| algorithm := "HS256" |}.

Definition generateSignedUrl (w : World) (policy secret url : string)
    (expiresAtMs : value) : completion string :=
  parsedUrl ← URL_new url;
  let urlWithoutQueryParams := origin parsedUrl +:+ pathname parsedUrl in
  token ← generateSignedToken w secret urlWithoutQueryParams expiresAtMs;
  let parsedUrl := URL_set "token" token parsedUrl in
  let parsedUrl := URL_set "policy" policy parsedUrl in
  Return (URL_toString parsedUrl).

(** ** Part 5/5: [signUrl], up to its [await] and from there on *)

Definition signUrl_call (now : Z)
    (host accessToken spaceId environmentId url : string)
    (expiresAtMs : value) (s : State) : completion nat * State :=
  createCachedAssetKey now host accessToken spaceId environmentId
    expiresAtMs s.

Definition signUrl_resume (w : World) (awaited : completion AssetKey)
    (url : string) (expiresAtMs : value) : completion string :=
  key ← awaited;
  generateSignedUrl w (policy key) (secret key) url expiresAtMs.

End Signing.

Arguments generateSignedToken {World} jwt_sign w secret urlWithoutQueryParams
  expiresAtMs.
Arguments generateSignedUrl {World} jwt_sign URL_new URL_toString w policy
  secret url expiresAtMs.
Arguments signUrl_resume {World} jwt_sign URL_new URL_toString w awaited url
  expiresAtMs.

(** ** The wrappers of parts 1/5 and 2/5

    [(...args) => createAssetKey("cdn.contentful.com", ...args)] and its
    siblings: the host is fixed, the other arguments pass through. *)

Definition createDeliveryAssetKey_request (now : Z) :=
  createAssetKey_request now "cdn.contentful.com".
Definition createManagementAssetKey_request (now : Z) :=
  createAssetKey_request now "api.contentful.com".
Definition createPreviewAssetKey_request (now : Z) :=
  createAssetKey_request now "preview.contentful.com".

Definition createCachedDeliveryAssetKey (now : Z) :=
  createCachedAssetKey now "cdn.contentful.com".
Definition createCachedManagementAssetKey (now : Z) :=
  createCachedAssetKey now "api.contentful.com".
Definition createCachedPreviewAssetKey (now : Z) :=
  createCachedAssetKey now "preview.contentful.com".

(** A string without the separator of the cache key. *)
Fixpoint colon_free (s : string) : bool :=
  match s with
  | EmptyString => true
  | String c rest =>
      if decide (String c "" = ":") then false else colon_free rest
  end.

(** ** [server.js]: the sign-and-redirect handler

    The handler of [handlerForSubdomain(subdomain)] as a function of what it
    reads of the request: [req.path], [req.params.spaceId] and [req.query].
    Routing (the mount points, the pattern [/:spaceId/*]) is Express's and
    is not modelled.  A value of [req.query] is an array or not; the value
    that reaches [searchParams] is its conversion to a string. *)

Inductive query_value :=
| QString (values : string)
| QArray (values : list string).

Record ExpressRequest := mkExpressRequest {
  req_path : string;
  req_spaceId : string;
  req_query : list (string * query_value);
}.

Inductive response :=
| SendStatus (code : Z)
| Redirect (url : string).

(** [const URL_LIFETIME = 10 * 1000]. *)
Definition URL_LIFETIME : Z := 10 * 1000.

(** A variable of [process.env] inside a template literal or as an argument
    that only reaches template literals: when it is not set it prints as
    [undefined]. *)
Definition template (v : option string) : string := default "undefined" v.

(** [process.env.CONTENTFUL_ENVIRONMENT_ID || "master"]. *)
Definition ENVIRONMENT_ID (CONTENTFUL_ENVIRONMENT_ID : option string) : string :=
  match CONTENTFUL_ENVIRONMENT_ID with
  | Some e => if decide (e = "") then "master" else e
  | None => "master"
  end.

Definition canFetch (req : ExpressRequest) : bool := true.

(** [next(new Error("Unauthorized"))] or [next()]. *)
Definition authorizeRequest (req : ExpressRequest) : completion unit :=
  if negb (canFetch req) then Throw (External "Unauthorized") else Return tt.

(** [url.searchParams.append(name, val)]. *)
Definition URL_append (name val : string) (u : URL) : URL :=
  {| origin := origin u;
     userinfo := userinfo u;
     pathname := pathname u;
     searchParams := searchParams u ++ [(name, val)];
     hash := hash u |}.

(** The loop over [Object.entries(req.query)]. *)
Fixpoint setQueryParams (query : list (string * query_value))
    (unsignedUrl : URL) : URL :=
  match query with
  | [] => unsignedUrl
  | (key, QArray values) :: rest =>
      setQueryParams rest
        (foldl (fun u value => URL_append key value u) unsignedUrl values)
  | (key, QString values) :: rest =>
      setQueryParams rest (URL_set key values unsignedUrl)
  end.

(** The name and value pairs of a query, arrays spread out, in order. *)
Definition query_tuples (query : list (string * query_value))
    : list (string * string) :=
  query ≫= fun '(key, values) =>
    match values with
    | QString v => [(key, v)]
    | QArray vs => (fun v => (key, v)) <$> vs
    end.

(** Where the handler stands when it stops running: it has answered, or it
    awaits the promise of [signUrl] with the URL and the expiry in hand. *)
Inductive handler_step :=
| Done (r : response)
| Suspended (promise : nat) (url : string) (expiresAtMs : value).

Section Server.

Variable World : Type.
Variable jwt_sign : World -> Payload -> string -> SignOptions -> completion string.
Variable URL_new : string -> completion URL.

(** [new URL(path, base)]. *)
Variable URL_new_base : string -> string -> completion URL.
Variable URL_toString : URL -> string.

(** [process.env.CONTENTFUL_API_HOST] and the like. *)
Variables CONTENTFUL_API_HOST ACCESS_TOKEN SPACE_ID : option string.
Variable CONTENTFUL_ENVIRONMENT_ID : option string.

(** The handler up to its [await]: [now] is the [Date.now()] of the
    handler, [now'] the one [createCachedAssetKey] reads after it. *)
Definition handler_start (subdomain : string) (now now' : Z)
    (req : ExpressRequest) (s : State) : handler_step * State :=
  let path := req_path req in
  if decide (Some (req_spaceId req) = SPACE_ID) then
    match
      unsignedUrl ← URL_new_base path
                      ("https://" +:+ subdomain +:+ ".secure.ctfassets.net");
      Return (setQueryParams (req_query req) unsignedUrl)
    with
    | Throw err => (Done (SendStatus 500), s)
    | Return unsignedUrl =>
        let url := URL_toString unsignedUrl in
        let expiresAtMs := Num (Fin (now + URL_LIFETIME)) in
        match
          signUrl_call now' (template CONTENTFUL_API_HOST)
            (template ACCESS_TOKEN) (template SPACE_ID)
            (ENVIRONMENT_ID CONTENTFUL_ENVIRONMENT_ID) url expiresAtMs s
        with
        | (Return promise, s') => (Suspended promise url expiresAtMs, s')
        | (Throw err, s') => (Done (SendStatus 500), s')
        end
    end
  else (Done (SendStatus 404), s).

(** The handler after the [await]: redirect, or 500 on any error. *)
Definition handler_resume (w : World) (awaited : completion AssetKey)
    (url : string) (expiresAtMs : value) : response :=
  match
    signUrl_resume jwt_sign URL_new URL_toString w awaited url expiresAtMs
  with
  | Return signedUrl => Redirect signedUrl
  | Throw err => SendStatus 500
  end.

End Server.

Arguments handler_resume {World} jwt_sign URL_new URL_toString w awaited url
  expiresAtMs.

(** ** A scenario

    The scope [(cdn.example.com, "sp1", "master")] and the first states of a
    run, used to evaluate the definitions on concrete inputs. *)

Definition ex_host : string := "cdn.example.com".
Definition ex_token : string := "CFPAT-example".
Definition ex_space : string := "sp1".
Definition ex_env : string := "master".
Definition ex_key : string := "cdn.example.com:sp1:master".

(** After one call at time [0] asking for a key valid until [1000]. *)
Definition ex_state1 : State :=
  (createCachedAssetKey 0 ex_host ex_token ex_space ex_env
     (Num (Fin 1000)) init).2.

(** The item that call installed, and the cell of its promise. *)
Definition ex_item1 : CacheItem :=
  {| item_ref := 0; expiresAtMs := MAX_VALIDITY_MS; promise := 0 |}.

Definition ex_cell1 : Fetch :=
  {| request := createAssetKey_request 0 ex_host ex_token ex_space ex_env
                  (Num (Fin MAX_VALIDITY_MS));
     catch_cacheKey := ex_key;
     catch_cacheItem := 0;
     settled := Pending |}.

(** A response the authority may give, and two ways a request can fail. *)
Definition ex_assetKey : AssetKey :=
  {| policy := "policy-1"; secret := "secret-1" |}.

Definition ex_success : fetch_outcome :=
  Responded {| ok := true; status := 201; json := Return ex_assetKey |}.

Definition ex_forbidden : fetch_outcome :=
  Responded {| ok := false; status := 403; json := Return ex_assetKey |}.

(** A second call ten milliseconds later that asks for more than the first
    entry offers, though no more than 48h from its own [now]. *)
Definition ex_calls : list (Z * value) :=
  [(0, Num (Fin 1000)); (10, Num (Fin (MAX_VALIDITY_MS + 5)))].

Definition ex_state2 : State :=
  (createCachedAssetKey 10 ex_host ex_token ex_space ex_env
     (Num (Fin (MAX_VALIDITY_MS + 5))) ex_state1).2.

Definition ex_item2 : CacheItem :=
  {| item_ref := 1; expiresAtMs := 10 + MAX_VALIDITY_MS; promise := 1 |}.

Definition ex_cell2 : Fetch :=
  {| request := createAssetKey_request 10 ex_host ex_token ex_space ex_env
                  (Num (Fin (10 + MAX_VALIDITY_MS)));
     catch_cacheKey := ex_key;
     catch_cacheItem := 1;
     settled := Pending |}.

(** Stand-ins for the library and the platform, to run the signer on the
    URL of the scenario: a signer that writes out what it was given, the
    parse of one URL, and a serializer of parsed URLs. *)
Definition ex_url : string := "https://cdn.example.com/a/b.jpg?w=200&token=old".

Definition ex_parsedUrl : URL :=
  {| origin := "https://cdn.example.com";
     userinfo := "";
     pathname := "/a/b.jpg";
     searchParams := [("w", "200"); ("token", "old")];
     hash := "" |}.

Definition ex_jwt_sign (w : unit) (payload : Payload) (secretOrPrivateKey : string)
    (options : SignOptions) : completion string :=
  Return (algorithm options +:+ "." +:+ sub payload +:+ "."
          +:+ secretOrPrivateKey).

Definition ex_URL_new (url : string) : completion URL :=
  if decide (url = ex_url) then Return ex_parsedUrl
  else Throw (InvalidURL url).

Fixpoint ex_query (l : list (string * string)) : string :=
  match l with
  | [] => ""
  | [(k, v)] => k +:+ "=" +:+ v
  | (k, v) :: rest => k +:+ "=" +:+ v +:+ "&" +:+ ex_query rest
  end.

Definition ex_URL_toString (u : URL) : string :=
  origin u +:+ pathname u +:+
  match searchParams u with
  | [] => ""
  | l => "?" +:+ ex_query l
  end +:+ hash u.

(** The same resource asked for with other query parameters and a
    fragment, and a parser that knows both URLs. *)
Definition ex_url2 : string := "https://cdn.example.com/a/b.jpg?h=50#top".

Definition ex_parsedUrl2 : URL :=
  {| origin := "https://cdn.example.com";
     userinfo := "";
     pathname := "/a/b.jpg";
     searchParams := [("h", "50")];
     hash := "#top" |}.

Definition ex_URL_new2 (url : string) : completion URL :=
  if decide (url = ex_url) then Return ex_parsedUrl
  else if decide (url = ex_url2) then Return ex_parsedUrl2
  else Throw (InvalidURL url).

(** A request to the handler mounted for [images], the URL its path parses
    to, and a parser that knows the URL the handler hands to [signUrl]. *)
Definition ex_req : ExpressRequest :=
  {| req_path := "/sp1/a/b.jpg";
     req_spaceId := "sp1";
     req_query := [("w", QString "200"); ("token", QString "old");
                   ("fm", QArray ["jpg"; "webp"])] |}.

Definition ex_pathUrl : URL :=
  {| origin := "https://images.secure.ctfassets.net";
     userinfo := "";
     pathname := "/sp1/a/b.jpg";
     searchParams := [];
     hash := "" |}.

Definition ex_URL_new_base (path base : string) : completion URL :=
  if decide (path = "/sp1/a/b.jpg" /\
             base = "https://images.secure.ctfassets.net")
  then Return ex_pathUrl
  else Throw (InvalidURL path).

Definition ex_unsignedUrl : URL := setQueryParams (req_query ex_req) ex_pathUrl.

Definition ex_server_URL_new (url : string) : completion URL :=
  if decide (url = ex_URL_toString ex_unsignedUrl) then Return ex_unsignedUrl
  else Throw (InvalidURL url).

(** A clock that steps back: the first call is made at reading [100], and
    its entry is still cached when the clock reads [0] again. *)
Definition ex_state_ahead : State :=
  (createCachedAssetKey 100 ex_host ex_token ex_space ex_env
     (Num (Fin 1000)) init).2.

(** The URL of the scenario once signed, and a parser that knows the
    original URL and the signed one. *)
Definition ex_signedUrl : URL :=
  URL_set "policy" "policy-1"
    (URL_set "token" "HS256.https://cdn.example.com/a/b.jpg.secret-1"
       ex_parsedUrl).

Definition ex_URL_new3 (url : string) : completion URL :=
  if decide (url = ex_url) then Return ex_parsedUrl
  else if decide (url = ex_URL_toString ex_signedUrl) then Return ex_signedUrl
  else Throw (InvalidURL url).

(** * Properties *)

(** ** The comparisons of the source *)

Lemma js_lt_undefined (v : value) : js_lt v Undefined = false.
Proof. unfold js_lt. destruct (ToNumber v); reflexivity. Qed.

Lemma js_gt_undefined (v : value) : js_gt Undefined v = false.
Proof. unfold js_gt. destruct (ToNumber v); reflexivity. Qed.

Lemma js_gt_lt (a b : value) : js_gt a b = js_lt b a.
Proof. reflexivity. Qed.

Lemma js_ge_not_lt (a b : value) : js_ge a b = true -> js_lt a b = false.
Proof.
  unfold js_ge, js_lt.
  destruct (ToNumber a) as [x|], (ToNumber b) as [y|]; simpl; try done.
  intros H. apply Z.leb_le in H. apply Z.ltb_ge. exact H.
Qed.

Lemma js_gt_true (a : value) (y : Z) :
  js_gt a (Num (Fin y)) = true -> exists x, a = Num (Fin x) /\ y < x.
Proof.
  unfold js_gt. destruct a as [|[x|]]; simpl; try done.
  intros H. apply Z.ltb_lt in H. eauto.
Qed.

(** ** [createCachedAssetKey], one call *)

Section OneCall.

Variables (now : Z) (host accessToken spaceId environmentId : string).
Variable minExpiresAtMs : value.
Variable s : State.

Lemma fetchAndInstall_throws :
  js_gt minExpiresAtMs (Num (Fin (now + MAX_VALIDITY_MS))) = true ->
  fetchAndInstall now host accessToken spaceId environmentId minExpiresAtMs s
  = (Throw (CannotFetchSoFar minExpiresAtMs (now + MAX_VALIDITY_MS)), s).
Proof. intros H. unfold fetchAndInstall. rewrite H. reflexivity. Qed.

Lemma fetchAndInstall_installs :
  js_gt minExpiresAtMs (Num (Fin (now + MAX_VALIDITY_MS))) = false ->
  fetchAndInstall now host accessToken spaceId environmentId minExpiresAtMs s
  = (Return (length (promises s)),
     installed now host accessToken spaceId environmentId s).
Proof. intros H. unfold fetchAndInstall. rewrite H. reflexivity. Qed.

(** A call leaves the state as it was, or it is [installed]. *)
Lemma createCachedAssetKey_cases :
  let '(r, s') :=
    createCachedAssetKey now host accessToken spaceId environmentId
      minExpiresAtMs s in
  (s' = s /\
   ((exists item,
       assetKeyCache s !! cacheKey_of host spaceId environmentId = Some item
       /\ r = Return (promise item)) \/
    r = Throw (CannotFetchSoFar minExpiresAtMs (now + MAX_VALIDITY_MS))))
  \/ (s' = installed now host accessToken spaceId environmentId s /\
      r = Return (length (promises s))).
Proof.
  unfold createCachedAssetKey.
  destruct (assetKeyCache s !! cacheKey_of host spaceId environmentId)
    as [item|] eqn:Hc.
  - destruct (js_lt _ _).
    + unfold fetchAndInstall. destruct (js_gt _ _); [left|right]; eauto.
    + left. eauto.
  - unfold fetchAndInstall. destruct (js_gt _ _); [left|right]; eauto.
Qed.

End OneCall.

(** ** Every reachable state is [consistent] *)

Lemma consistent_init now : consistent now init.
Proof.
  split.
  - intros key item H. simpl in H. rewrite lookup_empty in H. discriminate.
  - intros p cell H. destruct p; discriminate.
  - intros p q cp cq H. destruct p; discriminate.
Qed.

Lemma consistent_later now now' s :
  consistent now s -> now <= now' -> consistent now' s.
Proof.
  intros [Hc Ha Hd] Hle. split; try assumption.
  intros key item H. destruct (Hc key item H) as [Hexp Hcell].
  split; [lia | exact Hcell].
Qed.

Lemma consistent_installed now host accessToken spaceId environmentId s :
  consistent now s ->
  consistent now (installed now host accessToken spaceId environmentId s).
Proof.
  intros [Hc Ha Hd]. split; simpl.
  - intros key item H. apply lookup_insert_Some in H as [[<- <-]|[Hne H]].
    + simpl. split; [lia|]. eexists. split.
      * apply list_lookup_middle. reflexivity.
      * simpl. repeat split. intros e. discriminate.
    + destruct (Hc key item H) as [Hexp (cell & Hp & Hrest)].
      split; [exact Hexp|]. exists cell. split; [|exact Hrest].
      apply lookup_app_l_Some. exact Hp.
  - intros p cell H. apply lookup_snoc_Some in H as [[_ H]|[_ <-]].
    + specialize (Ha p cell H). lia.
    + simpl. lia.
  - intros p q cp cq Hp Hq Heq.
    apply lookup_snoc_Some in Hp as [[_ Hp]|[Hp <-]];
      apply lookup_snoc_Some in Hq as [[_ Hq]|[Hq <-]]; simpl in Heq.
    + exact (Hd p q cp cq Hp Hq Heq).
    + specialize (Ha p cp Hp). lia.
    + specialize (Ha q cq Hq). lia.
    + congruence.
Qed.

Lemma consistent_call now host accessToken spaceId environmentId min s :
  consistent now s ->
  consistent now
    (createCachedAssetKey now host accessToken spaceId environmentId min s).2.
Proof.
  intros H.
  pose proof (createCachedAssetKey_cases now host accessToken spaceId
                environmentId min s) as Hcases.
  destruct (createCachedAssetKey _ _ _ _ _ _ _) as [r s']. simpl.
  destruct Hcases as [[-> _]|[-> _]]; [exact H|].
  apply consistent_installed. exact H.
Qed.

(** The handler deletes at most the key of its own closure. *)
Lemma catch_handler_lookup cell cache key :
  catch_handler cell cache !! key =
  match cache !! key with
  | Some cur =>
      if decide (key = catch_cacheKey cell /\
                 item_ref cur = catch_cacheItem cell)
      then None else Some cur
  | None => None
  end.
Proof.
  destruct (decide (key = catch_cacheKey cell)) as [->|Hne].
  - unfold catch_handler.
    destruct (cache !! catch_cacheKey cell) as [cur|] eqn:Hcur.
    + destruct (decide (item_ref cur = catch_cacheItem cell)) as [Heq|Hneq].
      * rewrite lookup_delete_eq. rewrite decide_True; [reflexivity|tauto].
      * rewrite Hcur. rewrite decide_False; [reflexivity|tauto].
    + rewrite Hcur. reflexivity.
  - assert (catch_handler cell cache !! key = cache !! key) as ->.
    { unfold catch_handler.
      destruct (cache !! catch_cacheKey cell) as [cur|]; [|reflexivity].
      destruct (decide _); [|reflexivity].
      apply lookup_delete_ne. congruence. }
    destruct (cache !! key) as [cur|]; [|reflexivity].
    rewrite decide_False; [reflexivity|tauto].
Qed.

Lemma consistent_settle now p o s :
  consistent now s -> consistent now (settle p o s).
Proof.
  intros [Hc Ha Hd]. unfold settle.
  destruct (promises s !! p) as [cell|] eqn:Hp; [|split; assumption].
  destruct (settled cell) eqn:Hst; try (split; assumption).
  assert (Hlt : (p < length (promises s))%nat)
    by (apply lookup_lt_is_Some; eauto).
  destruct (createAssetKey_settle o) as [k|err]; split; simpl.
  - intros key item H. destruct (Hc key item H) as [Hexp (c & Hpc & Hr & Hk & Hn)].
    split; [exact Hexp|].
    destruct (decide (promise item = p)) as [Heq|Hne].
    + rewrite Heq in *. eexists.
      split; [apply list_lookup_insert_eq; exact Hlt|].
      simpl. assert (c = cell) as -> by congruence.
      repeat split; try assumption. intros e. discriminate.
    + exists c. split; [|auto].
      rewrite list_lookup_insert_ne; [exact Hpc|congruence].
  - intros q c H. apply list_lookup_insert_Some in H as [(<- & <- & _)|[_ H]].
    + simpl. exact (Ha p cell Hp).
    + exact (Ha q c H).
  - intros q1 q2 c1 c2 H1 H2 Heq.
    apply list_lookup_insert_Some in H1 as [(<- & <- & _)|[Hn1 H1]];
      apply list_lookup_insert_Some in H2 as [(<- & <- & _)|[Hn2 H2]];
      simpl in Heq; eauto.
  - intros key item H. rewrite catch_handler_lookup in H.
    destruct (assetKeyCache s !! key) as [cur|] eqn:Hcur; [|discriminate].
    destruct (decide _) as [|Hnot]; [discriminate|].
    injection H as <-.
    destruct (Hc key cur Hcur) as [Hexp (c & Hpc & Hr & Hk & Hn)].
    split; [exact Hexp|].
    destruct (decide (promise cur = p)) as [Heq|Hne].
    + exfalso. apply Hnot. rewrite Heq in Hpc.
      assert (c = cell) as -> by congruence. split; congruence.
    + exists c. split; [|auto].
      rewrite list_lookup_insert_ne; [exact Hpc|congruence].
  - intros q c H. apply list_lookup_insert_Some in H as [(<- & <- & _)|[_ H]].
    + simpl. exact (Ha p cell Hp).
    + exact (Ha q c H).
  - intros q1 q2 c1 c2 H1 H2 Heq.
    apply list_lookup_insert_Some in H1 as [(<- & <- & _)|[Hn1 H1]];
      apply list_lookup_insert_Some in H2 as [(<- & <- & _)|[Hn2 H2]];
      simpl in Heq; eauto.
Qed.

Lemma reachable_consistent now s : reachable now s -> consistent now s.
Proof.
  induction 1.
  - apply consistent_init.
  - eapply consistent_later; eassumption.
  - apply consistent_call. assumption.
  - apply consistent_settle. assumption.
Qed.

(** The same for a fetch started at an earlier clock reading. *)
Lemma consistent_installed_earlier
    n now host accessToken spaceId environmentId s :
  consistent n s -> now <= n ->
  consistent n (installed now host accessToken spaceId environmentId s).
Proof.
  intros [Hc Ha Hd] Hle. split; simpl.
  - intros key item H. apply lookup_insert_Some in H as [[<- <-]|[Hne H]].
    + simpl. split; [lia|]. eexists. split.
      * apply list_lookup_middle. reflexivity.
      * simpl. repeat split. intros e. discriminate.
    + destruct (Hc key item H) as [Hexp (cell & Hp & Hrest)].
      split; [exact Hexp|]. exists cell. split; [|exact Hrest].
      apply lookup_app_l_Some. exact Hp.
  - intros p cell H. apply lookup_snoc_Some in H as [[_ H]|[_ <-]].
    + specialize (Ha p cell H). lia.
    + simpl. lia.
  - intros p q cp cq Hp Hq Heq.
    apply lookup_snoc_Some in Hp as [[_ Hp]|[Hp <-]];
      apply lookup_snoc_Some in Hq as [[_ Hq]|[Hq <-]]; simpl in Heq.
    + exact (Hd p q cp cq Hp Hq Heq).
    + specialize (Ha p cp Hp). lia.
    + specialize (Ha q cq Hq). lia.
    + congruence.
Qed.

(** Whatever the clock did, a state that arises is consistent at a clock
    reading that is late enough. *)
Lemma arises_consistent s : arises s -> exists n, consistent n s.
Proof.
  induction 1 as [|now host accessToken spaceId environmentId min s _ [n IH]
                 |p o s _ [n IH]].
  - exists 0. apply consistent_init.
  - exists (Z.max n now).
    assert (Hm : consistent (Z.max n now) s)
      by (apply (consistent_later n); [exact IH|lia]).
    pose proof (createCachedAssetKey_cases now host accessToken spaceId
                  environmentId min s) as Hcases.
    destruct (createCachedAssetKey _ _ _ _ _ _ _) as [r s']. simpl.
    destruct Hcases as [[-> _]|[-> _]]; [exact Hm|].
    apply consistent_installed_earlier; [exact Hm|lia].
  - exists n. apply consistent_settle. exact IH.
Qed.

Lemma reachable_arises now s : reachable now s -> arises s.
Proof.
  induction 1.
  - apply arises_init.
  - assumption.
  - apply arises_call. assumption.
  - apply arises_settle. assumption.
Qed.

(** While the clock does not go back, no cached entry expires later than
    48h from now. *)
Lemma reachable_entries_within_horizon now s key item :
  reachable now s ->
  assetKeyCache s !! key = Some item ->
  expiresAtMs item <= now + MAX_VALIDITY_MS.
Proof.
  intros Hr Hc. apply reachable_consistent in Hr.
  destruct (cached_item _ _ Hr _ _ Hc) as [Hexp _]. exact Hexp.
Qed.

(** ** The scenario, evaluated *)

Example ex_key_is_cacheKey : cacheKey_of ex_host ex_space ex_env = ex_key.
Proof. reflexivity. Qed.

Example ex_state1_eq :
  ex_state1 = {| assetKeyCache := {[ ex_key := ex_item1 ]};
                 promises := [ex_cell1];
                 next_ref := 1 |}.
Proof. reflexivity. Qed.

Example ex_state1_lookup : assetKeyCache ex_state1 !! ex_key = Some ex_item1.
Proof. reflexivity. Qed.

Lemma ex_state1_reachable now : 0 <= now -> reachable now ex_state1.
Proof.
  intros H. apply (reachable_later 0); [|exact H].
  apply reachable_call. apply reachable_init.
Defined.

(** ** The cache: hits, the range check, what is installed *)

(** C4.  When the cache holds an entry for the scope key whose [expiresAtMs]
    is at least [minExpiresAtMs], [createCachedAssetKey] returns the promise
    of that entry, whatever state the promise is in, and leaves the whole
    state as it was: no request is sent and the cache is not modified. *)
Theorem cache_hit_returns_entry_promise
    now host accessToken spaceId environmentId minExpiresAtMs s item :
  assetKeyCache s !! cacheKey_of host spaceId environmentId = Some item ->
  js_ge (Num (Fin (expiresAtMs item))) minExpiresAtMs = true ->
  createCachedAssetKey now host accessToken spaceId environmentId
    minExpiresAtMs s
  = (Return (promise item), s).
Proof.
  intros Hc Hge. unfold createCachedAssetKey. rewrite Hc.
  rewrite (js_ge_not_lt _ _ Hge). reflexivity.
Qed.

Lemma cache_hit_returns_entry_promise_witness :
  createCachedAssetKey 5 ex_host ex_token ex_space ex_env (Num (Fin 2000))
    ex_state1
  = (Return 0%nat, ex_state1).
Proof.
  apply (cache_hit_returns_entry_promise 5 ex_host ex_token ex_space ex_env
           (Num (Fin 2000)) ex_state1 ex_item1).
  - reflexivity.
  - reflexivity.
Defined.

(** C10.  With [minExpiresAtMs] undefined both comparisons of
    [createCachedAssetKey] are false: an entry that is in the cache is
    reused whatever its [expiresAtMs], the out-of-range error is never
    thrown, and a request is sent exactly when the cache has no entry for
    the key.  [signUrl] hands its [expiresAtMs] to [createCachedAssetKey]
    unchanged, so the same holds for it. *)
Theorem undefined_minimum_reuses_any_entry
    now host accessToken spaceId environmentId url s :
  (forall v, js_lt v Undefined = false) /\
  (forall v, js_gt Undefined v = false) /\
  createCachedAssetKey now host accessToken spaceId environmentId Undefined s
  = match assetKeyCache s !! cacheKey_of host spaceId environmentId with
    | Some item => (Return (promise item), s)
    | None => (Return (length (promises s)),
               installed now host accessToken spaceId environmentId s)
    end /\
  (forall e,
     (createCachedAssetKey now host accessToken spaceId environmentId
        Undefined s).1 <> Throw e) /\
  network
    (createCachedAssetKey now host accessToken spaceId environmentId
       Undefined s).2
  = match assetKeyCache s !! cacheKey_of host spaceId environmentId with
    | Some _ => network s
    | None =>
        network s ++
        [createAssetKey_request now host accessToken spaceId environmentId
           (Num (Fin (now + MAX_VALIDITY_MS)))]
    end /\
  signUrl_call now host accessToken spaceId environmentId url Undefined s
  = createCachedAssetKey now host accessToken spaceId environmentId
      Undefined s.
Proof.
  split; [exact js_lt_undefined|]. split; [exact js_gt_undefined|].
  assert (Heq :
    createCachedAssetKey now host accessToken spaceId environmentId Undefined s
    = match assetKeyCache s !! cacheKey_of host spaceId environmentId with
      | Some item => (Return (promise item), s)
      | None => (Return (length (promises s)),
                 installed now host accessToken spaceId environmentId s)
      end).
  { unfold createCachedAssetKey.
    destruct (assetKeyCache s !! _) as [item|].
    - rewrite js_lt_undefined. reflexivity.
    - apply fetchAndInstall_installs. apply js_gt_undefined. }
  split; [exact Heq|].
  split; [|split; [|reflexivity]]; rewrite Heq;
    destruct (assetKeyCache s !! _) as [item|]; simpl;
    try reflexivity; try (intros e; discriminate).
  unfold network. simpl. rewrite fmap_app. reflexivity.
Qed.

(** C3, as the code has it.  A call whose [minExpiresAtMs] is greater than
    [now + 48h], made when the entry cached for the scope key (if there is
    one) does not expire later than [now + 48h], throws the out-of-range
    error and leaves the state as it was: no request is sent.  The
    condition on the entry holds as long as the clock has not gone back
    since the entry was installed ([reachable_entries_within_horizon]). *)
Theorem expiry_out_of_range_throws
    now host accessToken spaceId environmentId minExpiresAtMs s :
  (forall item,
     assetKeyCache s !! cacheKey_of host spaceId environmentId = Some item ->
     expiresAtMs item <= now + MAX_VALIDITY_MS) ->
  js_gt minExpiresAtMs (Num (Fin (now + MAX_VALIDITY_MS))) = true ->
  createCachedAssetKey now host accessToken spaceId environmentId
    minExpiresAtMs s
  = (Throw (CannotFetchSoFar minExpiresAtMs (now + MAX_VALIDITY_MS)), s) /\
  network
    (createCachedAssetKey now host accessToken spaceId environmentId
       minExpiresAtMs s).2 = network s.
Proof.
  intros Hhorizon Hgt.
  assert (Hthrow :
    createCachedAssetKey now host accessToken spaceId environmentId
      minExpiresAtMs s
    = (Throw (CannotFetchSoFar minExpiresAtMs (now + MAX_VALIDITY_MS)), s)).
  { unfold createCachedAssetKey.
    destruct (assetKeyCache s !! _) as [item|] eqn:Hc.
    - pose proof (Hhorizon item eq_refl) as Hexp.
      destruct (js_gt_true _ _ Hgt) as (m & -> & Hm).
      assert (js_lt (Num (Fin (expiresAtMs item))) (Num (Fin m)) = true)
        as ->.
      { unfold js_lt. simpl. apply Z.ltb_lt. lia. }
      apply fetchAndInstall_throws. exact Hgt.
    - apply fetchAndInstall_throws. exact Hgt. }
  split; [exact Hthrow|]. rewrite Hthrow. reflexivity.
Qed.

Lemma expiry_out_of_range_throws_witness :
  createCachedAssetKey 5 ex_host ex_token ex_space ex_env
    (Num (Fin (5 + MAX_VALIDITY_MS + 1))) ex_state1
  = (Throw (CannotFetchSoFar (Num (Fin (5 + MAX_VALIDITY_MS + 1)))
              (5 + MAX_VALIDITY_MS)),
     ex_state1) /\
  network
    (createCachedAssetKey 5 ex_host ex_token ex_space ex_env
       (Num (Fin (5 + MAX_VALIDITY_MS + 1))) ex_state1).2
  = network ex_state1.
Proof.
  apply (expiry_out_of_range_throws 5 ex_host ex_token ex_space ex_env
           (Num (Fin (5 + MAX_VALIDITY_MS + 1))) ex_state1).
  - intros item [= <-]. vm_compute. discriminate.
  - reflexivity.
Defined.

(** C3 as stated fails: the cache is looked up before the range is
    checked.  The clock read [100] when the entry was installed and reads
    [0] now; a call that asks for [48h + 50 ms], which is more than
    [now + 48h], finds the entry long-lived enough and gets its promise.
    No error is thrown (and no request is sent). *)
Lemma clock_step_back_serves_cached_entry :
  js_gt (Num (Fin (MAX_VALIDITY_MS + 50))) (Num (Fin (0 + MAX_VALIDITY_MS)))
  = true /\
  createCachedAssetKey 0 ex_host ex_token ex_space ex_env
    (Num (Fin (MAX_VALIDITY_MS + 50))) ex_state_ahead
  = (Return 0%nat, ex_state_ahead) /\
  createCachedAssetKey 0 ex_host ex_token ex_space ex_env
    (Num (Fin (MAX_VALIDITY_MS + 50))) ex_state_ahead
  <> (Throw (CannotFetchSoFar (Num (Fin (MAX_VALIDITY_MS + 50)))
               (0 + MAX_VALIDITY_MS)),
      ex_state_ahead).
Proof. repeat split. discriminate. Qed.

(** C5.  An entry that a call of [createCachedAssetKey] puts into the cache
    sits under the call's scope key and has [expiresAtMs = now + 48h],
    whatever [minExpiresAtMs] was; its promise is the one the call returns,
    it is pending, and the one request sent for it is that of
    [createAssetKey] called with exactly this [expiresAtMs], which asks the
    authority for [floor((now + 48h) / 1000)] seconds. *)
Theorem installed_entry_has_maximum_expiry
    now host accessToken spaceId environmentId minExpiresAtMs s r s' key item :
  createCachedAssetKey now host accessToken spaceId environmentId
    minExpiresAtMs s = (r, s') ->
  assetKeyCache s' !! key = Some item ->
  assetKeyCache s !! key <> Some item ->
  key = cacheKey_of host spaceId environmentId /\
  expiresAtMs item = now + MAX_VALIDITY_MS /\
  r = Return (promise item) /\
  exists cell,
    promises s' !! promise item = Some cell /\
    settled cell = Pending /\
    request cell
    = createAssetKey_request now host accessToken spaceId environmentId
        (Num (Fin (expiresAtMs item))) /\
    req_expiresAt (request cell) = Fin ((now + MAX_VALIDITY_MS) / 1000) /\
    network s' = network s ++ [request cell].
Proof.
  intros Hcall Hnew Hold.
  pose proof (createCachedAssetKey_cases now host accessToken spaceId
                environmentId minExpiresAtMs s) as Hcases.
  rewrite Hcall in Hcases.
  destruct Hcases as [[-> _]|[-> ->]]; [contradiction|].
  simpl in Hnew. apply lookup_insert_Some in Hnew as [[<- <-]|[_ Hnew]];
    [|contradiction].
  simpl. repeat split.
  eexists. split; [apply list_lookup_middle; reflexivity|].
  simpl. repeat split.
  unfold network. simpl. rewrite fmap_app. reflexivity.
Qed.

Lemma installed_entry_has_maximum_expiry_witness :
  ex_key = cacheKey_of ex_host ex_space ex_env /\
  expiresAtMs ex_item1 = 0 + MAX_VALIDITY_MS /\
  @Return nat 0%nat = Return (promise ex_item1) /\
  exists cell,
    promises ex_state1 !! promise ex_item1 = Some cell /\
    settled cell = Pending /\
    request cell
    = createAssetKey_request 0 ex_host ex_token ex_space ex_env
        (Num (Fin (expiresAtMs ex_item1))) /\
    req_expiresAt (request cell) = Fin ((0 + MAX_VALIDITY_MS) / 1000) /\
    network ex_state1 = network init ++ [request cell].
Proof.
  apply (installed_entry_has_maximum_expiry 0 ex_host ex_token ex_space ex_env
           (Num (Fin 1000)) init (Return 0%nat) ex_state1 ex_key ex_item1).
  - reflexivity.
  - reflexivity.
  - simpl. rewrite lookup_empty. discriminate.
Defined.

(** ** A request that fails *)

Lemma settle_pending_throw p o s cell err :
  promises s !! p = Some cell ->
  settled cell = Pending ->
  createAssetKey_settle o = Throw err ->
  settle p o s
  = {| assetKeyCache := catch_handler cell (assetKeyCache s);
       promises :=
         <[p := {| request := request cell;
                   catch_cacheKey := catch_cacheKey cell;
                   catch_cacheItem := catch_cacheItem cell;
                   settled := Rejected err |}]> (promises s);
       next_ref := next_ref s |}.
Proof. intros Hp Hst Ho. unfold settle. rewrite Hp, Hst, Ho. reflexivity. Qed.

Lemma settle_pending_return p o s cell k :
  promises s !! p = Some cell ->
  settled cell = Pending ->
  createAssetKey_settle o = Return k ->
  settle p o s
  = {| assetKeyCache := assetKeyCache s;
       promises :=
         <[p := {| request := request cell;
                   catch_cacheKey := catch_cacheKey cell;
                   catch_cacheItem := catch_cacheItem cell;
                   settled := Fulfilled k |}]> (promises s);
       next_ref := next_ref s |}.
Proof. intros Hp Hst Ho. unfold settle. rewrite Hp, Hst, Ho. reflexivity. Qed.

(** Everyone who awaits promise [p] sees how its request ended. *)
Lemma await_settle p o s cell :
  promises s !! p = Some cell ->
  settled cell = Pending ->
  await (settle p o s) p = Some (createAssetKey_settle o).
Proof.
  intros Hp Hst.
  assert (Hlt : (p < length (promises s))%nat)
    by (apply lookup_lt_is_Some; eauto).
  destruct (createAssetKey_settle o) as [k|err] eqn:Ho.
  - rewrite (settle_pending_return p o s cell k Hp Hst Ho).
    unfold await. simpl. rewrite list_lookup_insert_eq by exact Hlt.
    reflexivity.
  - rewrite (settle_pending_throw p o s cell err Hp Hst Ho).
    unfold await. simpl. rewrite list_lookup_insert_eq by exact Hlt.
    reflexivity.
Qed.

(** In a reachable state the item a fetch installed is the one that holds
    its promise. *)
Lemma own_item_iff_own_promise now s p cell key cur :
  consistent now s ->
  promises s !! p = Some cell ->
  assetKeyCache s !! key = Some cur ->
  item_ref cur = catch_cacheItem cell <-> promise cur = p.
Proof.
  intros Hs Hp Hcur.
  destruct (cached_item _ _ Hs _ _ Hcur) as [_ (c & Hc & Href & Hkey & _)].
  split.
  - intros Heq. apply (refs_distinct _ _ Hs _ _ c cell Hc Hp). congruence.
  - intros <-. congruence.
Qed.

(** The entry that holds the promise of a fetch sits under the key that
    fetch's handler looks at, and is the object it compares with. *)
Lemma own_entry_iff_own_promise now s p cell key cur :
  consistent now s ->
  promises s !! p = Some cell ->
  assetKeyCache s !! key = Some cur ->
  promise cur = p <->
  key = catch_cacheKey cell /\ item_ref cur = catch_cacheItem cell.
Proof.
  intros Hs Hp Hcur.
  destruct (cached_item _ _ Hs _ _ Hcur) as [_ (c & Hc & Href & Hkey & _)].
  split.
  - intros <-. assert (c = cell) as -> by congruence. auto.
  - intros [_ Heq].
    apply (own_item_iff_own_promise now s p cell key cur Hs Hp Hcur).
    exact Heq.
Qed.

(** C1.  When the request behind promise [p], the promise of a fetch that a
    [createCachedAssetKey] call started, fails, the cache entry of a key is
    deleted if and only if it is the entry that holds promise [p], that is,
    if and only if the key is the one the call used and the entry stored
    there now is the very object that call installed (the same reference).
    Every other entry, in particular one that a later fetch installed for
    the same key, stays as it is, and everyone who awaits promise [p] gets
    the error.  This holds in every state that arises, whatever the clock
    did. *)
Theorem failed_fetch_clears_only_its_own_entry s p cell o err :
  arises s ->
  promises s !! p = Some cell ->
  settled cell = Pending ->
  createAssetKey_settle o = Throw err ->
  (forall key cur, assetKeyCache s !! key = Some cur ->
     (assetKeyCache (settle p o s) !! key = None <->
      promise cur = p) /\
     (assetKeyCache (settle p o s) !! key = None <->
      key = catch_cacheKey cell /\ item_ref cur = catch_cacheItem cell) /\
     (assetKeyCache (settle p o s) !! key <> None ->
      assetKeyCache (settle p o s) !! key = Some cur) /\
     (item_ref cur = catch_cacheItem cell <-> promise cur = p)) /\
  (forall key cur, assetKeyCache s !! key = Some cur -> promise cur <> p ->
     assetKeyCache (settle p o s) !! key = Some cur) /\
  (forall key, assetKeyCache s !! key = None ->
     assetKeyCache (settle p o s) !! key = None) /\
  await (settle p o s) p = Some (Throw err).
Proof.
  intros Hr Hp Hst Ho. apply arises_consistent in Hr as [now Hr].
  assert (Hlook : forall key,
    assetKeyCache (settle p o s) !! key
    = match assetKeyCache s !! key with
      | Some cur =>
          if decide (key = catch_cacheKey cell /\
                     item_ref cur = catch_cacheItem cell)
          then None else Some cur
      | None => None
      end).
  { intros key. rewrite (settle_pending_throw p o s cell err Hp Hst Ho).
    simpl. apply catch_handler_lookup. }
  assert (Hdel : forall key cur, assetKeyCache s !! key = Some cur ->
    assetKeyCache (settle p o s) !! key = None <->
    key = catch_cacheKey cell /\ item_ref cur = catch_cacheItem cell).
  { intros key cur Hcur. rewrite Hlook, Hcur.
    destruct (decide _) as [Hd|Hd]; [tauto|].
    split; [discriminate|contradiction]. }
  split; [|split; [|split]].
  - intros key cur Hcur. split; [|split; [|split]].
    + rewrite (Hdel key cur Hcur). symmetry.
      apply (own_entry_iff_own_promise now s p cell key cur Hr Hp Hcur).
    + exact (Hdel key cur Hcur).
    + rewrite Hlook, Hcur.
      destruct (decide _); [contradiction|reflexivity].
    + apply (own_item_iff_own_promise now s p cell key cur Hr Hp Hcur).
  - intros key cur Hcur Hne. rewrite Hlook, Hcur.
    rewrite decide_False; [reflexivity|].
    intros [_ Href].
    apply Hne, (own_item_iff_own_promise now s p cell key cur Hr Hp Hcur).
    exact Href.
  - intros key Hnone. rewrite Hlook, Hnone. reflexivity.
  - rewrite (await_settle p o s cell Hp Hst), Ho. reflexivity.
Qed.

Lemma ex_state2_reachable : reachable 10 ex_state2.
Proof. apply reachable_call. apply ex_state1_reachable. lia. Defined.

Lemma ex_state2_arises : arises ex_state2.
Proof. apply arises_call. apply arises_call. apply arises_init. Defined.

(** The fetch whose entry is cached fails (promise 1), and the older fetch
    fails (promise 0). *)
Lemma failed_fetch_clears_only_its_own_entry_witness :
  ((forall key cur, assetKeyCache ex_state2 !! key = Some cur ->
     (assetKeyCache (settle 1%nat ex_forbidden ex_state2) !! key = None <->
      promise cur = 1%nat) /\
     (assetKeyCache (settle 1%nat ex_forbidden ex_state2) !! key = None <->
      key = catch_cacheKey ex_cell2 /\ item_ref cur = catch_cacheItem ex_cell2) /\
     (assetKeyCache (settle 1%nat ex_forbidden ex_state2) !! key <> None ->
      assetKeyCache (settle 1%nat ex_forbidden ex_state2) !! key = Some cur) /\
     (item_ref cur = catch_cacheItem ex_cell2 <-> promise cur = 1%nat)) /\
  (forall key cur, assetKeyCache ex_state2 !! key = Some cur -> promise cur <> 1%nat ->
     assetKeyCache (settle 1%nat ex_forbidden ex_state2) !! key = Some cur) /\
  (forall key, assetKeyCache ex_state2 !! key = None ->
     assetKeyCache (settle 1%nat ex_forbidden ex_state2) !! key = None) /\
  await (settle 1%nat ex_forbidden ex_state2) 1%nat = Some (Throw (FailedToCreateAssetKey 403))) /\
  ((forall key cur, assetKeyCache ex_state2 !! key = Some cur ->
     (assetKeyCache (settle 0%nat ex_forbidden ex_state2) !! key = None <->
      promise cur = 0%nat) /\
     (assetKeyCache (settle 0%nat ex_forbidden ex_state2) !! key = None <->
      key = catch_cacheKey ex_cell1 /\ item_ref cur = catch_cacheItem ex_cell1) /\
     (assetKeyCache (settle 0%nat ex_forbidden ex_state2) !! key <> None ->
      assetKeyCache (settle 0%nat ex_forbidden ex_state2) !! key = Some cur) /\
     (item_ref cur = catch_cacheItem ex_cell1 <-> promise cur = 0%nat)) /\
  (forall key cur, assetKeyCache ex_state2 !! key = Some cur -> promise cur <> 0%nat ->
     assetKeyCache (settle 0%nat ex_forbidden ex_state2) !! key = Some cur) /\
  (forall key, assetKeyCache ex_state2 !! key = None ->
     assetKeyCache (settle 0%nat ex_forbidden ex_state2) !! key = None) /\
  await (settle 0%nat ex_forbidden ex_state2) 0%nat = Some (Throw (FailedToCreateAssetKey 403))).
Proof.
  split.
  - apply (failed_fetch_clears_only_its_own_entry ex_state2 1%nat ex_cell2
             ex_forbidden (FailedToCreateAssetKey 403)).
    + exact ex_state2_arises.
    + reflexivity.
    + reflexivity.
    + reflexivity.
  - apply (failed_fetch_clears_only_its_own_entry ex_state2 0%nat ex_cell1
             ex_forbidden (FailedToCreateAssetKey 403)).
    + exact ex_state2_arises.
    + reflexivity.
    + reflexivity.
    + reflexivity.
Defined.

(** The scenario: the first request fails late and the newer entry stays;
    had the second request failed, its own entry would have gone, and the
    next call would have sent one new request. *)
Example ex_late_failure_keeps_newer_entry :
  assetKeyCache ex_state2 !! ex_key = Some ex_item2 /\
  assetKeyCache (settle 0 ex_forbidden ex_state2) !! ex_key = Some ex_item2 /\
  await (settle 0 ex_forbidden ex_state2) 0
  = Some (Throw (FailedToCreateAssetKey 403)) /\
  await (settle 0 ex_forbidden ex_state2) 1 = None.
Proof. repeat split. Qed.

Example ex_own_failure_clears_entry :
  assetKeyCache (settle 1 ex_forbidden ex_state2) !! ex_key = None /\
  (createCachedAssetKey 20 ex_host ex_token ex_space ex_env (Num (Fin 30))
     (settle 1 ex_forbidden ex_state2)).1 = Return 2%nat /\
  length (network
            (createCachedAssetKey 20 ex_host ex_token ex_space ex_env
               (Num (Fin 30)) (settle 1 ex_forbidden ex_state2)).2) = 3%nat.
Proof. repeat split. Qed.

(** When the request succeeds the entry stays and every caller that
    awaits its promise gets the asset key. *)
Example ex_success_is_shared :
  await (settle 1 ex_success ex_state2) 1 = Some (Return ex_assetKey) /\
  assetKeyCache (settle 1 ex_success ex_state2) !! ex_key = Some ex_item2 /\
  createCachedAssetKey 20 ex_host ex_token ex_space ex_env (Num (Fin 30))
    (settle 1 ex_success ex_state2)
  = (Return 1%nat, settle 1 ex_success ex_state2).
Proof. repeat split. Qed.

(** ** Sharing one fetch *)

(** While an entry satisfies every caller, every call returns its promise. *)
Lemma createCachedAssetKey_all_hits
    host accessToken spaceId environmentId calls s item :
  assetKeyCache s !! cacheKey_of host spaceId environmentId = Some item ->
  Forall (fun c => js_gt c.2 (Num (Fin (expiresAtMs item))) = false) calls ->
  createCachedAssetKey_all host accessToken spaceId environmentId calls s
  = (replicate (length calls) (Return (promise item)), s).
Proof.
  intros Hc Hall. induction Hall as [|[now min] rest Hmin _ IH].
  - reflexivity.
  - simpl. unfold createCachedAssetKey at 1. rewrite Hc.
    change (js_lt (Num (Fin (expiresAtMs item))) min)
      with (js_gt min (Num (Fin (expiresAtMs item)))).
    simpl in Hmin. rewrite Hmin, IH. reflexivity.
Qed.

(** C2, as the code has it.  Calls of [createCachedAssetKey] for one scope
    key, made while the cache has no entry for the key and before any
    request ends, each with a [minExpiresAtMs] that is not greater than the
    first call's [now + 48h] (so in particular calls that all read the same
    clock value [now] and ask for at most [now + 48h]): the first call sends
    one request and installs its entry, every call returns the promise of
    that entry, no other request is sent, and when the request ends every
    caller gets the same asset key or the same error. *)
Theorem compatible_calls_share_one_fetch
    host accessToken spaceId environmentId now minExpiresAtMs rest s :
  assetKeyCache s !! cacheKey_of host spaceId environmentId = None ->
  Forall (fun c => js_gt c.2 (Num (Fin (now + MAX_VALIDITY_MS))) = false)
         ((now, minExpiresAtMs) :: rest) ->
  createCachedAssetKey_all host accessToken spaceId environmentId
    ((now, minExpiresAtMs) :: rest) s
  = (replicate (S (length rest)) (Return (length (promises s))),
     installed now host accessToken spaceId environmentId s) /\
  network (installed now host accessToken spaceId environmentId s)
  = network s ++
    [createAssetKey_request now host accessToken spaceId environmentId
       (Num (Fin (now + MAX_VALIDITY_MS)))] /\
  forall o,
    await (settle (length (promises s)) o
             (installed now host accessToken spaceId environmentId s))
          (length (promises s))
    = Some (createAssetKey_settle o).
Proof.
  intros Hnone Hall. apply Forall_cons in Hall as [Hmin Hrest].
  simpl in Hmin. split; [|split].
  - simpl. unfold createCachedAssetKey at 1. rewrite Hnone.
    rewrite (fetchAndInstall_installs _ _ _ _ _ _ _ Hmin).
    rewrite (createCachedAssetKey_all_hits host accessToken spaceId
               environmentId rest
               (installed now host accessToken spaceId environmentId s)
               {| item_ref := next_ref s;
                  expiresAtMs := now + MAX_VALIDITY_MS;
                  promise := length (promises s) |}).
    + reflexivity.
    + simpl. apply lookup_insert_eq.
    + exact Hrest.
  - unfold network. simpl. rewrite fmap_app. reflexivity.
  - intros o. eapply await_settle.
    + simpl. apply list_lookup_middle. reflexivity.
    + reflexivity.
Qed.

Lemma compatible_calls_share_one_fetch_witness :
  createCachedAssetKey_all ex_host ex_token ex_space ex_env
    [(0, Num (Fin 1000)); (0, Num (Fin 2000)); (3, Undefined)] init
  = (replicate 3 (Return 0%nat),
     installed 0 ex_host ex_token ex_space ex_env init) /\
  network (installed 0 ex_host ex_token ex_space ex_env init)
  = network init ++
    [createAssetKey_request 0 ex_host ex_token ex_space ex_env
       (Num (Fin (0 + MAX_VALIDITY_MS)))] /\
  forall o,
    await (settle 0 o (installed 0 ex_host ex_token ex_space ex_env init)) 0
    = Some (createAssetKey_settle o).
Proof.
  apply (compatible_calls_share_one_fetch ex_host ex_token ex_space ex_env 0
           (Num (Fin 1000)) [(0, Num (Fin 2000)); (3, Undefined)] init).
  - reflexivity.
  - repeat constructor.
Defined.

(** C2 as stated fails: two calls for one scope key, each asking for no
    more than 48h from its own [now], the second ten milliseconds after the
    first and before the first request has ended.  The second call finds
    the entry too short-lived, so it sends a second request: the calls hold
    different promises and two requests for the key are in flight.  The
    same happens to two calls that read the same clock value when the cache
    already holds an entry that satisfies only the first of them. *)
Lemma stricter_call_starts_second_fetch :
  Forall (fun c => js_gt c.2 (Num (Fin (c.1 + MAX_VALIDITY_MS))) = false)
         ex_calls /\
  createCachedAssetKey_all ex_host ex_token ex_space ex_env ex_calls init
  = ([Return 0%nat; Return 1%nat], ex_state2) /\
  length (network ex_state2) = 2%nat /\
  length (in_flight ex_key ex_state2) = 2%nat /\
  ~ (length (in_flight ex_key ex_state2) <= 1)%nat /\
  createCachedAssetKey_all ex_host ex_token ex_space ex_env
    [(10, Num (Fin 1000)); (10, Num (Fin (MAX_VALIDITY_MS + 5)))] ex_state1
  = ([Return 0%nat; Return 1%nat], ex_state2).
Proof.
  split; [repeat constructor|].
  split; [reflexivity|].
  split; [reflexivity|].
  split; [reflexivity|].
  split; [vm_compute; lia|].
  reflexivity.
Qed.

(** ** [URLSearchParams.set] *)

Lemma params_named_removed name (l : list (string * string)) :
  params_named name (filter (fun kv => kv.1 <> name) l) = [].
Proof.
  unfold params_named. induction l as [|[k v] l IH]; [reflexivity|].
  rewrite (filter_cons (fun kv => kv.1 <> name)). simpl.
  destruct (decide (k <> name)) as [Hne|Heq]; [|exact IH].
  rewrite filter_cons. simpl. rewrite decide_False by exact Hne. exact IH.
Qed.

Lemma params_named_other_removed name name' (l : list (string * string)) :
  name' <> name ->
  params_named name' (filter (fun kv => kv.1 <> name) l)
  = params_named name' l.
Proof.
  intros Hne. unfold params_named. induction l as [|[k v] l IH]; [reflexivity|].
  rewrite (filter_cons (fun kv => kv.1 <> name)). simpl.
  destruct (decide (k <> name)) as [Hk|Hk].
  - rewrite !filter_cons. simpl. rewrite IH. reflexivity.
  - rewrite IH. rewrite (filter_cons _ (k, v)). simpl.
    rewrite decide_False; [reflexivity|].
    intros ->. apply Hk. exact Hne.
Qed.

Lemma params_except_removed name names (l : list (string * string)) :
  name ∈ names ->
  params_except names (filter (fun kv => kv.1 <> name) l)
  = params_except names l.
Proof.
  intros Hin. unfold params_except.
  induction l as [|[k v] l IH]; [reflexivity|].
  rewrite (filter_cons (fun kv => kv.1 <> name)). simpl.
  destruct (decide (k <> name)) as [Hk|Hk].
  - rewrite !filter_cons. simpl. rewrite IH. reflexivity.
  - rewrite IH. rewrite (filter_cons _ (k, v)). simpl.
    rewrite decide_False; [reflexivity|].
    intros Hnot. apply Hk. intros ->. apply Hnot. exact Hin.
Qed.

(** After [set(name, val)] there is exactly one tuple called [name], and it
    carries [val]. *)
Lemma searchParams_set_named name val l :
  params_named name (searchParams_set name val l) = [(name, val)].
Proof.
  induction l as [|[k v] l IH]; simpl.
  - unfold params_named. rewrite filter_cons. simpl.
    rewrite decide_True by reflexivity. reflexivity.
  - destruct (decide (k = name)) as [->|Hne].
    + unfold params_named. rewrite filter_cons. simpl.
      rewrite decide_True by reflexivity.
      f_equal. apply params_named_removed.
    + unfold params_named in *. rewrite filter_cons. simpl.
      rewrite decide_False by exact Hne. exact IH.
Qed.

(** The tuples with another name are the ones there were, in their order. *)
Lemma searchParams_set_named_other name name' val l :
  name' <> name ->
  params_named name' (searchParams_set name val l) = params_named name' l.
Proof.
  intros Hne. induction l as [|[k v] l IH]; simpl.
  - unfold params_named. rewrite filter_cons. simpl.
    rewrite decide_False by congruence. reflexivity.
  - destruct (decide (k = name)) as [->|Hk].
    + unfold params_named. rewrite !filter_cons. simpl.
      rewrite !decide_False by congruence.
      apply params_named_other_removed. exact Hne.
    + unfold params_named in *. rewrite !filter_cons. simpl.
      rewrite IH. reflexivity.
Qed.

Lemma searchParams_set_except name names val l :
  name ∈ names ->
  params_except names (searchParams_set name val l) = params_except names l.
Proof.
  intros Hin. induction l as [|[k v] l IH]; simpl.
  - unfold params_except. rewrite filter_cons. simpl.
    rewrite decide_False; [reflexivity|]. intros Hnot. apply Hnot. exact Hin.
  - destruct (decide (k = name)) as [->|Hk].
    + unfold params_except. rewrite !filter_cons. simpl.
      rewrite !decide_False by (intros Hnot; apply Hnot; exact Hin).
      apply params_except_removed. exact Hin.
    + unfold params_except in *. rewrite !filter_cons. simpl.
      rewrite IH. reflexivity.
Qed.

Example ex_set_overwrites :
  searchParams_set "token" "new"
    [("w", "200"); ("token", "a"); ("h", "1"); ("token", "b")]
  = [("w", "200"); ("token", "new"); ("h", "1")].
Proof. reflexivity. Qed.

Example ex_set_appends :
  searchParams_set "policy" "p" [("w", "200")] = [("w", "200"); ("policy", "p")].
Proof. reflexivity. Qed.

(** ** The token and the signed URL *)

Lemma ToBoolean_false (v : value) :
  ToBoolean v = false <-> v = Undefined \/ v = Num (Fin 0) \/ v = Num NaN.
Proof.
  destruct v as [|[z|]]; simpl.
  - split; [auto|reflexivity].
  - rewrite negb_false_iff, Z.eqb_eq. split.
    + intros ->. auto.
    + intros [H|[H|H]]; congruence.
  - split; [auto|reflexivity].
Qed.

(** With an [expiresAtMs] that is falsy the payload has [exp] undefined. *)
Lemma signedTokenPayload_falsy url (v : value) :
  ToBoolean v = false ->
  signedTokenPayload url v = {| sub := url; exp := Undefined |}.
Proof. intros H. unfold signedTokenPayload. rewrite H. reflexivity. Qed.

Lemma signedTokenPayload_number url (z : Z) :
  z <> 0 ->
  signedTokenPayload url (Num (Fin z))
  = {| sub := url; exp := Num (Fin (z / 1000)) |}.
Proof.
  intros Hz. unfold signedTokenPayload. simpl.
  destruct (Z.eqb_spec z 0) as [|_]; [contradiction|]. reflexivity.
Qed.

Example ex_floor_negative : floor_div (Num (Fin (-1))) 1000 = Fin (-1).
Proof. reflexivity. Qed.

Example ex_floor_below_second :
  signedTokenPayload "u" (Num (Fin 999)) = {| sub := "u"; exp := Num (Fin 0) |}.
Proof. reflexivity. Qed.

Section SigningProperties.

Variable World : Type.
Variable jwt_sign : World -> Payload -> string -> SignOptions -> completion string.
Variable URL_new : string -> completion URL.
Variable URL_toString : URL -> string.

(** What [generateSignedToken] does is one call of [jwt.sign], with the
    payload of [signedTokenPayload], the secret as key, and HS256. *)
Lemma generateSignedToken_call w secret url expiresAtMs :
  generateSignedToken jwt_sign w secret url expiresAtMs
  = jwt_sign w (signedTokenPayload url expiresAtMs) secret
      {| algorithm := "HS256" |}.
Proof. reflexivity. Qed.

Lemma generateSignedToken_falsy w secret url expiresAtMs :
  ToBoolean expiresAtMs = false ->
  generateSignedToken jwt_sign w secret url expiresAtMs
  = jwt_sign w {| sub := url; exp := Undefined |} secret
      {| algorithm := "HS256" |}.
Proof.
  intros H. rewrite generateSignedToken_call, signedTokenPayload_falsy by exact H.
  reflexivity.
Qed.

(** C6, as the code has it.  For an input URL that parses and an
    [expiresAtMs] that is an integer other than 0 and at most
    [Number.MAX_SAFE_INTEGER] in magnitude (as every timestamp in
    milliseconds is), the token of [generateSignedUrl] is what [jwt.sign]
    returns, under HS256 and with the secret as key, for the payload whose
    [sub] is the origin followed by the path of the parsed URL (no query
    parameters) and whose [exp] is [floor(expiresAtMs / 1000)].  With
    [expiresAtMs] undefined the payload has the same [sub] and [exp]
    undefined. *)
Theorem token_binds_canonical_url_and_expiry
    w policy secret url (z : Z) parsedUrl :
  URL_new url = Return parsedUrl ->
  z <> 0 ->
  - MAX_SAFE_INTEGER <= z <= MAX_SAFE_INTEGER ->
  (generateSignedToken jwt_sign w secret
     (origin parsedUrl +:+ pathname parsedUrl) (Num (Fin z))
   = jwt_sign w
       {| sub := origin parsedUrl +:+ pathname parsedUrl;
          exp := Num (Fin (z / 1000)) |}
       secret {| algorithm := "HS256" |} /\
   generateSignedUrl jwt_sign URL_new URL_toString w policy secret url
     (Num (Fin z))
   = (token ← jwt_sign w
                {| sub := origin parsedUrl +:+ pathname parsedUrl;
                   exp := Num (Fin (z / 1000)) |}
                secret {| algorithm := "HS256" |};
      Return (URL_toString
                (URL_set "policy" policy (URL_set "token" token parsedUrl)))))
  /\
  (generateSignedToken jwt_sign w secret
     (origin parsedUrl +:+ pathname parsedUrl) Undefined
   = jwt_sign w
       {| sub := origin parsedUrl +:+ pathname parsedUrl; exp := Undefined |}
       secret {| algorithm := "HS256" |} /\
   generateSignedUrl jwt_sign URL_new URL_toString w policy secret url
     Undefined
   = (token ← jwt_sign w
                {| sub := origin parsedUrl +:+ pathname parsedUrl;
                   exp := Undefined |}
                secret {| algorithm := "HS256" |};
      Return (URL_toString
                (URL_set "policy" policy (URL_set "token" token parsedUrl))))).
Proof.
  intros Hparse Hz _. split; split.
  - rewrite generateSignedToken_call, signedTokenPayload_number by exact Hz.
    reflexivity.
  - unfold generateSignedUrl. rewrite Hparse. simpl.
    rewrite generateSignedToken_call, signedTokenPayload_number by exact Hz.
    reflexivity.
  - reflexivity.
  - unfold generateSignedUrl. rewrite Hparse. reflexivity.
Qed.

(** C7.  When the input URL parses and the token is signed, the URL that
    [generateSignedUrl] (and so [signUrl]) returns is the serialization of
    a URL with the origin, the path and the other parts of the input, with
    the query parameters of the input other than [token] and [policy]
    unchanged and in their order, and with exactly one [token] and one
    [policy] parameter, which carry the new token and the policy. *)
Theorem signed_url_keeps_parameters
    w policy secret url expiresAtMs parsedUrl token :
  URL_new url = Return parsedUrl ->
  generateSignedToken jwt_sign w secret
    (origin parsedUrl +:+ pathname parsedUrl) expiresAtMs = Return token ->
  exists signedUrl,
    generateSignedUrl jwt_sign URL_new URL_toString w policy secret url
      expiresAtMs = Return (URL_toString signedUrl) /\
    signUrl_resume jwt_sign URL_new URL_toString w
      (Return {| policy := policy; secret := secret |}) url expiresAtMs
    = Return (URL_toString signedUrl) /\
    origin signedUrl = origin parsedUrl /\
    pathname signedUrl = pathname parsedUrl /\
    userinfo signedUrl = userinfo parsedUrl /\
    hash signedUrl = hash parsedUrl /\
    params_except ["token"; "policy"] (searchParams signedUrl)
    = params_except ["token"; "policy"] (searchParams parsedUrl) /\
    params_named "token" (searchParams signedUrl) = [("token", token)] /\
    params_named "policy" (searchParams signedUrl) = [("policy", policy)].
Proof.
  intros Hparse Htoken.
  exists (URL_set "policy" policy (URL_set "token" token parsedUrl)).
  assert (Hurl :
    generateSignedUrl jwt_sign URL_new URL_toString w policy secret url
      expiresAtMs
    = Return (URL_toString
                (URL_set "policy" policy (URL_set "token" token parsedUrl)))).
  { unfold generateSignedUrl. rewrite Hparse. simpl. rewrite Htoken.
    reflexivity. }
  split; [exact Hurl|]. split; [exact Hurl|].
  simpl. repeat split.
  - rewrite !searchParams_set_except; [reflexivity| |].
    + apply list_elem_of_In. simpl. auto.
    + apply list_elem_of_In. simpl. auto.
  - rewrite searchParams_set_named_other by discriminate.
    apply searchParams_set_named.
  - apply searchParams_set_named.
Qed.

End SigningProperties.

Lemma token_binds_canonical_url_and_expiry_witness :
  (generateSignedToken ex_jwt_sign tt "secret-1"
     (origin ex_parsedUrl +:+ pathname ex_parsedUrl) (Num (Fin 5999))
   = ex_jwt_sign tt
       {| sub := "https://cdn.example.com/a/b.jpg"; exp := Num (Fin 5) |}
       "secret-1" {| algorithm := "HS256" |} /\
   generateSignedUrl ex_jwt_sign ex_URL_new ex_URL_toString tt "policy-1"
     "secret-1" ex_url (Num (Fin 5999))
   = (token ← ex_jwt_sign tt
                {| sub := "https://cdn.example.com/a/b.jpg";
                   exp := Num (Fin 5) |}
                "secret-1" {| algorithm := "HS256" |};
      Return (ex_URL_toString
                (URL_set "policy" "policy-1"
                   (URL_set "token" token ex_parsedUrl)))))
  /\
  (generateSignedToken ex_jwt_sign tt "secret-1"
     (origin ex_parsedUrl +:+ pathname ex_parsedUrl) Undefined
   = ex_jwt_sign tt
       {| sub := "https://cdn.example.com/a/b.jpg"; exp := Undefined |}
       "secret-1" {| algorithm := "HS256" |} /\
   generateSignedUrl ex_jwt_sign ex_URL_new ex_URL_toString tt "policy-1"
     "secret-1" ex_url Undefined
   = (token ← ex_jwt_sign tt
                {| sub := "https://cdn.example.com/a/b.jpg";
                   exp := Undefined |}
                "secret-1" {| algorithm := "HS256" |};
      Return (ex_URL_toString
                (URL_set "policy" "policy-1"
                   (URL_set "token" token ex_parsedUrl))))).
Proof.
  apply (token_binds_canonical_url_and_expiry unit ex_jwt_sign ex_URL_new
           ex_URL_toString tt "policy-1" "secret-1" ex_url 5999 ex_parsedUrl).
  - reflexivity.
  - discriminate.
  - unfold MAX_SAFE_INTEGER. lia.
Defined.

Lemma signed_url_keeps_parameters_witness :
  exists signedUrl,
    generateSignedUrl ex_jwt_sign ex_URL_new ex_URL_toString tt "policy-1"
      "secret-1" ex_url (Num (Fin 5999))
    = Return (ex_URL_toString signedUrl) /\
    signUrl_resume ex_jwt_sign ex_URL_new ex_URL_toString tt
      (Return {| policy := "policy-1"; secret := "secret-1" |}) ex_url
      (Num (Fin 5999))
    = Return (ex_URL_toString signedUrl) /\
    origin signedUrl = origin ex_parsedUrl /\
    pathname signedUrl = pathname ex_parsedUrl /\
    userinfo signedUrl = userinfo ex_parsedUrl /\
    hash signedUrl = hash ex_parsedUrl /\
    params_except ["token"; "policy"] (searchParams signedUrl)
    = params_except ["token"; "policy"] (searchParams ex_parsedUrl) /\
    params_named "token" (searchParams signedUrl)
    = [("token", "HS256.https://cdn.example.com/a/b.jpg.secret-1")] /\
    params_named "policy" (searchParams signedUrl) = [("policy", "policy-1")].
Proof.
  apply (signed_url_keeps_parameters unit ex_jwt_sign ex_URL_new
           ex_URL_toString tt "policy-1" "secret-1" ex_url (Num (Fin 5999))
           ex_parsedUrl "HS256.https://cdn.example.com/a/b.jpg.secret-1").
  - reflexivity.
  - reflexivity.
Defined.

(** The scenario, run through the stand-ins. *)
Example ex_signed_url :
  generateSignedUrl ex_jwt_sign ex_URL_new ex_URL_toString tt "policy-1"
    "secret-1" ex_url (Num (Fin 5999))
  = Return ("https://cdn.example.com/a/b.jpg?w=200"
            +:+ "&token=HS256.https://cdn.example.com/a/b.jpg.secret-1"
            +:+ "&policy=policy-1").
Proof. reflexivity. Qed.

(** C6 as stated fails: [exp] is not [floor(expiresAtMs / 1000)] for every
    [expiresAtMs].  When [expiresAtMs] is undefined, and also when it is 0
    or NaN, the payload given to [jwt.sign] has [exp] undefined. *)
Lemma falsy_expiry_is_not_floored :
  signedTokenPayload "https://cdn.example.com/a/b.jpg" Undefined
  = {| sub := "https://cdn.example.com/a/b.jpg"; exp := Undefined |} /\
  signedTokenPayload "https://cdn.example.com/a/b.jpg" Undefined
  <> {| sub := "https://cdn.example.com/a/b.jpg";
        exp := Num (floor_div Undefined 1000) |} /\
  signedTokenPayload "https://cdn.example.com/a/b.jpg" (Num (Fin 0))
  = {| sub := "https://cdn.example.com/a/b.jpg"; exp := Undefined |} /\
  signedTokenPayload "https://cdn.example.com/a/b.jpg" (Num (Fin 0))
  <> {| sub := "https://cdn.example.com/a/b.jpg";
        exp := Num (floor_div (Num (Fin 0)) 1000) |} /\
  signedTokenPayload "https://cdn.example.com/a/b.jpg" (Num NaN)
  = {| sub := "https://cdn.example.com/a/b.jpg"; exp := Undefined |} /\
  signedTokenPayload "https://cdn.example.com/a/b.jpg" (Num NaN)
  <> {| sub := "https://cdn.example.com/a/b.jpg";
        exp := Num (floor_div (Num NaN) 1000) |}.
Proof. repeat split; discriminate. Qed.

(** ** Further properties of the cache and of the payload *)

(** X1.  The promise that [createCachedAssetKey] returns is the promise
    of the entry the cache holds for the scope key after the call, and that
    entry is not too short-lived for the caller: its [expiresAtMs] is not
    less than [minExpiresAtMs]. *)
Theorem returned_entry_satisfies_minimum
    now host accessToken spaceId environmentId minExpiresAtMs s p s' :
  createCachedAssetKey now host accessToken spaceId environmentId
    minExpiresAtMs s = (Return p, s') ->
  exists item,
    assetKeyCache s' !! cacheKey_of host spaceId environmentId = Some item /\
    promise item = p /\
    js_lt (Num (Fin (expiresAtMs item))) minExpiresAtMs = false.
Proof.
  unfold createCachedAssetKey, fetchAndInstall.
  destruct (assetKeyCache s !! _) as [item|] eqn:Hc.
  - destruct (js_lt _ _) eqn:Hlt.
    + destruct (js_gt _ _) eqn:Hgt; [discriminate|].
      intros [= <- <-]. eexists. simpl. rewrite lookup_insert_eq.
      repeat split. exact Hgt.
    + intros [= <- <-]. exists item. auto.
  - destruct (js_gt _ _) eqn:Hgt; [discriminate|].
    intros [= <- <-]. eexists. simpl. rewrite lookup_insert_eq.
    repeat split. exact Hgt.
Qed.

Lemma returned_entry_satisfies_minimum_witness :
  exists item,
    assetKeyCache ex_state2 !! cacheKey_of ex_host ex_space ex_env = Some item /\
    promise item = 1%nat /\
    js_lt (Num (Fin (expiresAtMs item))) (Num (Fin (MAX_VALIDITY_MS + 5)))
    = false.
Proof.
  apply (returned_entry_satisfies_minimum 10 ex_host ex_token ex_space ex_env
           (Num (Fin (MAX_VALIDITY_MS + 5))) ex_state1 1%nat ex_state2).
  reflexivity.
Defined.

(** X2.  In every reachable state the promise of a cached entry has not
    been rejected: a fetch that failed is never served from the cache. *)
Theorem cached_promise_is_never_rejected now s key item e :
  reachable now s ->
  assetKeyCache s !! key = Some item ->
  await s (promise item) <> Some (Throw e).
Proof.
  intros Hr Hc. apply reachable_consistent in Hr.
  destruct (cached_item _ _ Hr _ _ Hc) as [_ (cell & Hp & _ & _ & Hn)].
  unfold await. rewrite Hp.
  destruct (settled cell) eqn:Hst; try discriminate.
  intros [= ->]. exact (Hn e eq_refl).
Qed.

Lemma cached_promise_is_never_rejected_witness :
  await (settle 0 ex_forbidden ex_state2) (promise ex_item2)
  <> Some (Throw (FailedToCreateAssetKey 403)).
Proof.
  apply (cached_promise_is_never_rejected 10 (settle 0 ex_forbidden ex_state2)
           ex_key ex_item2 (FailedToCreateAssetKey 403)).
  - apply reachable_settle. exact ex_state2_reachable.
  - reflexivity.
Defined.

(** When [expiresAtMs] is undefined, 0 or NaN, the payload that
    [generateSignedToken] gives to [jwt.sign] has [sub] set to the URL and
    [exp] undefined: it is neither 0 nor any other number. *)
Theorem falsy_expiry_payload_has_no_exp url :
  signedTokenPayload url Undefined = {| sub := url; exp := Undefined |} /\
  signedTokenPayload url (Num (Fin 0)) = {| sub := url; exp := Undefined |} /\
  signedTokenPayload url (Num NaN) = {| sub := url; exp := Undefined |}.
Proof. repeat split. Qed.

(** ** What a call and the end of a request change *)

(** X3.  The only error [createCachedAssetKey] throws is the out-of-range
    error, and only when [minExpiresAtMs] is greater than [now + 48h]; the
    state is then as it was, and the cache holds no entry for the key that
    lives long enough. *)
Theorem throws_only_out_of_range
    now host accessToken spaceId environmentId minExpiresAtMs s e :
  (createCachedAssetKey now host accessToken spaceId environmentId
     minExpiresAtMs s).1 = Throw e ->
  e = CannotFetchSoFar minExpiresAtMs (now + MAX_VALIDITY_MS) /\
  js_gt minExpiresAtMs (Num (Fin (now + MAX_VALIDITY_MS))) = true /\
  (createCachedAssetKey now host accessToken spaceId environmentId
     minExpiresAtMs s).2 = s /\
  forall item,
    assetKeyCache s !! cacheKey_of host spaceId environmentId = Some item ->
    js_lt (Num (Fin (expiresAtMs item))) minExpiresAtMs = true.
Proof.
  unfold createCachedAssetKey, fetchAndInstall.
  destruct (assetKeyCache s !! _) as [item|] eqn:Hc.
  - destruct (js_lt _ _) eqn:Hlt; [|discriminate].
    destruct (js_gt _ _) eqn:Hgt; [|discriminate].
    simpl. intros [= <-]. repeat split. intros item' [= <-]. exact Hlt.
  - destruct (js_gt _ _) eqn:Hgt; [|discriminate].
    simpl. intros [= <-]. repeat split. intros item' Hitem. discriminate.
Qed.

Lemma throws_only_out_of_range_witness :
  CannotFetchSoFar (Num (Fin (5 + MAX_VALIDITY_MS + 1))) (5 + MAX_VALIDITY_MS)
  = CannotFetchSoFar (Num (Fin (5 + MAX_VALIDITY_MS + 1)))
      (5 + MAX_VALIDITY_MS) /\
  js_gt (Num (Fin (5 + MAX_VALIDITY_MS + 1)))
    (Num (Fin (5 + MAX_VALIDITY_MS))) = true /\
  (createCachedAssetKey 5 ex_host ex_token ex_space ex_env
     (Num (Fin (5 + MAX_VALIDITY_MS + 1))) ex_state1).2 = ex_state1 /\
  forall item,
    assetKeyCache ex_state1 !! cacheKey_of ex_host ex_space ex_env = Some item ->
    js_lt (Num (Fin (expiresAtMs item))) (Num (Fin (5 + MAX_VALIDITY_MS + 1)))
    = true.
Proof.
  apply (throws_only_out_of_range 5 ex_host ex_token ex_space ex_env
           (Num (Fin (5 + MAX_VALIDITY_MS + 1))) ex_state1).
  reflexivity.
Defined.

(** X4.  A call of [createCachedAssetKey] changes the cache under its own
    key only, sends at most one request, and leaves every promise that
    existed before as it was. *)
Theorem call_touches_only_its_key
    now host accessToken spaceId environmentId minExpiresAtMs s :
  (forall key, key <> cacheKey_of host spaceId environmentId ->
     assetKeyCache
       (createCachedAssetKey now host accessToken spaceId environmentId
          minExpiresAtMs s).2 !! key
     = assetKeyCache s !! key) /\
  (exists new,
     promises
       (createCachedAssetKey now host accessToken spaceId environmentId
          minExpiresAtMs s).2 = promises s ++ new /\
     network
       (createCachedAssetKey now host accessToken spaceId environmentId
          minExpiresAtMs s).2 = network s ++ (request <$> new) /\
     (length new <= 1)%nat) /\
  (forall p r, await s p = Some r ->
     await
       (createCachedAssetKey now host accessToken spaceId environmentId
          minExpiresAtMs s).2 p = Some r).
Proof.
  pose proof (createCachedAssetKey_cases now host accessToken spaceId
                environmentId minExpiresAtMs s) as Hcases.
  destruct (createCachedAssetKey _ _ _ _ _ _ _) as [r s']. simpl.
  destruct Hcases as [[-> _]|[-> _]].
  - split; [reflexivity|]. split; [|auto].
    exists []. rewrite !app_nil_r. auto.
  - split; [|split].
    + intros key Hne. simpl. apply lookup_insert_ne. congruence.
    + eexists. split; [reflexivity|]. split.
      * unfold network. simpl. rewrite fmap_app. reflexivity.
      * simpl. lia.
    + intros p r' Hp. unfold await in *. simpl.
      destruct (promises s !! p) as [cell|] eqn:Hcell; [|discriminate].
      rewrite (lookup_app_l_Some _ _ _ _ Hcell). exact Hp.
Qed.

(** What [settle] does to the promise cells: the closure and the request
    of every cell stay, only the state of cell [p] may change. *)
Lemma settle_cell p o s q cell' :
  promises (settle p o s) !! q = Some cell' ->
  exists cell, promises s !! q = Some cell /\
    request cell = request cell' /\
    catch_cacheKey cell = catch_cacheKey cell' /\
    catch_cacheItem cell = catch_cacheItem cell' /\
    (q <> p -> cell = cell').
Proof.
  unfold settle.
  destruct (promises s !! p) as [c|] eqn:Hp; [|eauto 10].
  destruct (settled c); [|eauto 10|eauto 10].
  destruct (createAssetKey_settle o); simpl; intros H;
    apply list_lookup_insert_Some in H as [(<- & <- & _)|[Hne H]];
    try (exists c; simpl; repeat split; [assumption|congruence]);
    exists cell'; repeat split; assumption.
Qed.

(** What [settle] does to the cache: it deletes or it does nothing. *)
Lemma settle_cache_sub p o s key item :
  assetKeyCache (settle p o s) !! key = Some item ->
  assetKeyCache s !! key = Some item.
Proof.
  unfold settle.
  destruct (promises s !! p) as [c|]; [|auto].
  destruct (settled c); [|auto|auto].
  destruct (createAssetKey_settle o); simpl; [auto|].
  rewrite catch_handler_lookup.
  destruct (assetKeyCache s !! key) as [cur|]; [|discriminate].
  destruct (decide _); [discriminate|auto].
Qed.

Lemma settle_network p o s : network (settle p o s) = network s.
Proof.
  unfold network. apply list_eq. intros q. rewrite !list_lookup_fmap.
  destruct (promises (settle p o s) !! q) as [cell'|] eqn:H'.
  - destruct (settle_cell p o s q cell' H') as (cell & -> & Hreq & _).
    simpl. congruence.
  - assert (length (promises (settle p o s)) = length (promises s)) as Hlen.
    { unfold settle. destruct (promises s !! p) as [c|]; [|reflexivity].
      destruct (settled c); [|reflexivity|reflexivity].
      destruct (createAssetKey_settle o); simpl; apply length_insert. }
    apply lookup_ge_None in H'. rewrite Hlen in H'.
    apply lookup_ge_None in H'. rewrite H'. reflexivity.
Qed.

(** X5.  The end of a request sends nothing, never puts an entry into the
    cache or changes one (it can only delete), leaves every other promise
    as it was, and changes nothing at all in the cache when the request
    succeeded: the key of a fetch whose entry has been replaced or deleted
    is not cached when it arrives. *)
Theorem settle_only_deletes p o s :
  network (settle p o s) = network s /\
  (forall key item, assetKeyCache (settle p o s) !! key = Some item ->
     assetKeyCache s !! key = Some item) /\
  (forall q, q <> p -> promises (settle p o s) !! q = promises s !! q) /\
  (forall k, createAssetKey_settle o = Return k ->
     assetKeyCache (settle p o s) = assetKeyCache s).
Proof.
  split; [apply settle_network|]. split; [apply settle_cache_sub|]. split.
  - intros q Hne. unfold settle.
    destruct (promises s !! p) as [c|]; [|reflexivity].
    destruct (settled c); [|reflexivity|reflexivity].
    destruct (createAssetKey_settle o); simpl;
      apply list_lookup_insert_ne; congruence.
  - intros k Hk. unfold settle. rewrite Hk.
    destruct (promises s !! p) as [c|]; [|reflexivity].
    destruct (settled c); reflexivity.
Qed.

(** ** The cache holds the newest fetch *)

(** References and promises are handed out together. *)
Lemma reachable_aligned now s :
  reachable now s ->
  next_ref s = length (promises s) /\
  forall p cell, promises s !! p = Some cell -> catch_cacheItem cell = p.
Proof.
  induction 1 as [now|now now' s _ IH _
                 |now host accessToken spaceId environmentId min s _ IH
                 |now p o s _ IH].
  - split; [reflexivity|]. intros p cell H. destruct p; discriminate.
  - exact IH.
  - pose proof (createCachedAssetKey_cases now host accessToken spaceId
                  environmentId min s) as Hcases.
    destruct (createCachedAssetKey _ _ _ _ _ _ _) as [r s']. simpl.
    destruct Hcases as [[-> _]|[-> _]]; [exact IH|].
    destruct IH as [Hnext Hcells]. simpl. split.
    + rewrite length_app. simpl. lia.
    + intros p cell H. apply lookup_snoc_Some in H as [[_ H]|[-> <-]].
      * exact (Hcells p cell H).
      * simpl. exact Hnext.
  - destruct IH as [Hnext Hcells]. split.
    + assert (next_ref (settle p o s) = next_ref s) as ->.
      { unfold settle. destruct (promises s !! p) as [c|]; [|reflexivity].
        destruct (settled c); [|reflexivity|reflexivity].
        destruct (createAssetKey_settle o); reflexivity. }
      rewrite Hnext. pose proof (settle_network p o s) as Hn.
      unfold network in Hn. apply (f_equal length) in Hn.
      rewrite !length_fmap in Hn. symmetry. exact Hn.
    + intros q cell' H.
      destruct (settle_cell p o s q cell' H) as (cell & Hq & _ & _ & Hr & _).
      rewrite <- Hr. exact (Hcells q cell Hq).
Qed.

(** X6.  In every reachable state the entry cached for a key belongs to
    the fetch started last for that key: no fetch for the key was started
    after the one whose promise the entry holds.  So an older fetch never
    gets back into the cache, whatever the order in which requests end. *)
Theorem cache_holds_newest_fetch now s key item p cell :
  reachable now s ->
  assetKeyCache s !! key = Some item ->
  promises s !! p = Some cell ->
  catch_cacheKey cell = key ->
  (p <= promise item)%nat.
Proof.
  intros Hr. revert key item p cell.
  induction Hr as [now|now now' s _ IH _
                  |now host accessToken spaceId environmentId min s Hr IH
                  |now q o s _ IH]; intros key item p cell Hc Hp Hk.
  - simpl in Hc. rewrite lookup_empty in Hc. discriminate.
  - exact (IH key item p cell Hc Hp Hk).
  - pose proof (createCachedAssetKey_cases now host accessToken spaceId
                  environmentId min s) as Hcases.
    destruct (createCachedAssetKey _ _ _ _ _ _ _) as [r s']. simpl in *.
    destruct Hcases as [[-> _]|[-> _]]; [exact (IH key item p cell Hc Hp Hk)|].
    simpl in Hc, Hp.
    apply lookup_snoc_Some in Hp as [[Hlt Hp]|[-> <-]];
      apply lookup_insert_Some in Hc as [[<- <-]|[Hne Hc]]; simpl in *.
    + lia.
    + exact (IH key item p cell Hc Hp Hk).
    + lia.
    + congruence.
  - apply settle_cache_sub in Hc.
    destruct (settle_cell q o s p cell Hp) as (c & Hpc & _ & Hkc & _).
    apply (IH key item p c Hc Hpc). congruence.
Qed.

Lemma cache_holds_newest_fetch_witness : (0 <= promise ex_item2)%nat.
Proof.
  apply (cache_holds_newest_fetch 10 ex_state2 ex_key ex_item2 0%nat ex_cell1).
  - exact ex_state2_reachable.
  - reflexivity.
  - reflexivity.
  - reflexivity.
Defined.

(** ** Cache keys *)

Lemma append_nil_l (s : string) : "" +:+ s = s.
Proof. reflexivity. Qed.

Lemma append_cons_l c (a s : string) :
  String c a +:+ s = String c (a +:+ s).
Proof. reflexivity. Qed.

Lemma append_colon_inj (a b x y : string) :
  colon_free a = true -> colon_free b = true ->
  a +:+ ":" +:+ x = b +:+ ":" +:+ y -> a = b /\ x = y.
Proof.
  revert b. induction a as [|c a IH]; intros [|d b] Ha Hb Heq;
    rewrite ?append_nil_l, ?append_cons_l, ?append_nil_l in Heq;
    simpl in Ha, Hb.
  - injection Heq as ->. auto.
  - injection Heq as <- _. destruct (decide _); [discriminate|congruence].
  - injection Heq as -> _. destruct (decide _); [discriminate|congruence].
  - injection Heq as -> Heq.
    destruct (decide _); [discriminate|].
    destruct (IH b Ha Hb Heq) as [-> ->]. auto.
Qed.

(** X7.  Scopes whose host and space id contain no [:] have different
    cache keys unless they are the same scope: the key determines host,
    space and environment. *)
Theorem cacheKey_of_inj host spaceId environmentId host' spaceId' environmentId' :
  colon_free host = true -> colon_free spaceId = true ->
  colon_free host' = true -> colon_free spaceId' = true ->
  cacheKey_of host spaceId environmentId
  = cacheKey_of host' spaceId' environmentId' ->
  host = host' /\ spaceId = spaceId' /\ environmentId = environmentId'.
Proof.
  intros Hh Hs Hh' Hs' Heq. unfold cacheKey_of in Heq.
  apply (append_colon_inj host host') in Heq as [-> Heq]; [|assumption..].
  apply (append_colon_inj spaceId spaceId') in Heq as [-> Heq];
    [|assumption..].
  auto.
Qed.

Lemma cacheKey_of_inj_witness :
  ex_host = "cdn.example.com" /\ ex_space = "sp1" /\ ex_env = "master".
Proof.
  apply (cacheKey_of_inj ex_host ex_space ex_env "cdn.example.com" "sp1"
           "master"); reflexivity.
Defined.

(** Without that, two scopes can share a key, and so an entry. *)
Example ex_cacheKey_collision :
  cacheKey_of "localhost:8080" "sp1" "master"
  = cacheKey_of "localhost" "8080:sp1" "master".
Proof. reflexivity. Qed.

(** X8.  The cached wrappers for the delivery, management and preview
    hosts never share a cache entry, whatever the space and environment:
    a call through one of them leaves the entries the other two read as
    they were. *)
Theorem cached_wrappers_are_independent
    now accessToken spaceId environmentId minExpiresAtMs s
    spaceId' environmentId' :
  let delivery :=
    (createCachedDeliveryAssetKey now accessToken spaceId environmentId
       minExpiresAtMs s).2 in
  let management :=
    (createCachedManagementAssetKey now accessToken spaceId environmentId
       minExpiresAtMs s).2 in
  let preview :=
    (createCachedPreviewAssetKey now accessToken spaceId environmentId
       minExpiresAtMs s).2 in
  let key host := cacheKey_of host spaceId' environmentId' in
  (assetKeyCache delivery !! key "api.contentful.com"
   = assetKeyCache s !! key "api.contentful.com" /\
   assetKeyCache delivery !! key "preview.contentful.com"
   = assetKeyCache s !! key "preview.contentful.com") /\
  (assetKeyCache management !! key "cdn.contentful.com"
   = assetKeyCache s !! key "cdn.contentful.com" /\
   assetKeyCache management !! key "preview.contentful.com"
   = assetKeyCache s !! key "preview.contentful.com") /\
  (assetKeyCache preview !! key "cdn.contentful.com"
   = assetKeyCache s !! key "cdn.contentful.com" /\
   assetKeyCache preview !! key "api.contentful.com"
   = assetKeyCache s !! key "api.contentful.com").
Proof.
  assert (Hframe : forall host host',
    cacheKey_of host spaceId environmentId
    <> cacheKey_of host' spaceId' environmentId' ->
    assetKeyCache
      (createCachedAssetKey now host accessToken spaceId environmentId
         minExpiresAtMs s).2 !! cacheKey_of host' spaceId' environmentId'
    = assetKeyCache s !! cacheKey_of host' spaceId' environmentId').
  { intros host host' Hne.
    pose proof (createCachedAssetKey_cases now host accessToken spaceId
                  environmentId minExpiresAtMs s) as Hcases.
    destruct (createCachedAssetKey _ _ _ _ _ _ _) as [r s']. simpl.
    destruct Hcases as [[-> _]|[-> _]]; [reflexivity|].
    simpl. apply lookup_insert_ne. exact Hne. }
  cbv zeta. unfold createCachedDeliveryAssetKey,
    createCachedManagementAssetKey, createCachedPreviewAssetKey.
  repeat split; apply Hframe; unfold cacheKey_of;
    rewrite !append_cons_l; discriminate.
Qed.

(** ** The expiry [createAssetKey] asks for *)

(** X9.  [createAssetKey] asks the authority for whole seconds: for an
    [expiresAtMs] that is an integer of at most [Number.MAX_SAFE_INTEGER]
    in magnitude, the expiry in the request body, taken back to
    milliseconds, is never later than the [expiresAtMs] it was called with
    and less than one second earlier; without an [expiresAtMs] the same
    holds for [now + 48h]. *)
Theorem request_expiry_is_floored
    now host accessToken spaceId environmentId (z : Z) :
  - MAX_SAFE_INTEGER <= z <= MAX_SAFE_INTEGER ->
  - MAX_SAFE_INTEGER <= now + MAX_VALIDITY_MS <= MAX_SAFE_INTEGER ->
  (exists sec,
     req_expiresAt
       (createAssetKey_request now host accessToken spaceId environmentId
          (Num (Fin z))) = Fin sec /\
     1000 * sec <= z < 1000 * sec + 1000) /\
  (exists sec,
     req_expiresAt
       (createAssetKey_request now host accessToken spaceId environmentId
          Undefined) = Fin sec /\
     1000 * sec <= now + MAX_VALIDITY_MS < 1000 * sec + 1000).
Proof.
  intros _ _. split; eexists; (split; [reflexivity|]).
  - pose proof (Z.mod_pos_bound z 1000 ltac:(lia)).
    pose proof (Z.div_mod z 1000 ltac:(lia)). lia.
  - pose proof (Z.mod_pos_bound (now + MAX_VALIDITY_MS) 1000 ltac:(lia)).
    pose proof (Z.div_mod (now + MAX_VALIDITY_MS) 1000 ltac:(lia)). lia.
Qed.

Lemma request_expiry_is_floored_witness :
  (exists sec,
     req_expiresAt
       (createAssetKey_request 1700000000123 ex_host ex_token ex_space ex_env
          (Num (Fin 1700000005999))) = Fin sec /\
     1000 * sec <= 1700000005999 < 1000 * sec + 1000) /\
  (exists sec,
     req_expiresAt
       (createAssetKey_request 1700000000123 ex_host ex_token ex_space ex_env
          Undefined) = Fin sec /\
     1000 * sec <= 1700000000123 + MAX_VALIDITY_MS < 1000 * sec + 1000).
Proof.
  apply (request_expiry_is_floored 1700000000123 ex_host ex_token ex_space
           ex_env 1700000005999).
  - unfold MAX_SAFE_INTEGER. lia.
  - unfold MAX_SAFE_INTEGER, MAX_VALIDITY_MS. lia.
Defined.

(** ** More on the payload and on signing *)

(** X10.  The payload of [generateSignedToken] carries the URL as [sub];
    it has no [exp] exactly when [expiresAtMs] is undefined, 0 or NaN, and
    for any other integer of at most [Number.MAX_SAFE_INTEGER] in magnitude
    [exp] is [floor(expiresAtMs / 1000)], which is 0 for an [expiresAtMs]
    from 1 to 999. *)
Theorem payload_exp_absent_iff_falsy url (v : value) :
  sub (signedTokenPayload url v) = url /\
  (exp (signedTokenPayload url v) = Undefined <->
   v = Undefined \/ v = Num (Fin 0) \/ v = Num NaN) /\
  (forall z, v = Num (Fin z) -> z <> 0 ->
     - MAX_SAFE_INTEGER <= z <= MAX_SAFE_INTEGER ->
     exp (signedTokenPayload url v) = Num (Fin (z / 1000))) /\
  (forall z, v = Num (Fin z) -> 1 <= z <= 999 ->
     exp (signedTokenPayload url v) = Num (Fin 0)).
Proof.
  split; [reflexivity|]. split; [|split].
  - rewrite <- ToBoolean_false. unfold signedTokenPayload. simpl.
    destruct (ToBoolean v); split; try discriminate; reflexivity.
  - intros z -> Hz _. rewrite signedTokenPayload_number by exact Hz.
    reflexivity.
  - intros z -> Hz. rewrite signedTokenPayload_number by lia. simpl.
    rewrite Z.div_small by lia. reflexivity.
Qed.

Section MoreSigningProperties.

Variable World : Type.
Variable jwt_sign : World -> Payload -> string -> SignOptions -> completion string.
Variable URL_new : string -> completion URL.
Variable URL_toString : URL -> string.

Lemma generateSignedUrl_parsed w policy secret url expiresAtMs parsedUrl :
  URL_new url = Return parsedUrl ->
  generateSignedUrl jwt_sign URL_new URL_toString w policy secret url
    expiresAtMs
  = (token ← generateSignedToken jwt_sign w secret
               (origin parsedUrl +:+ pathname parsedUrl) expiresAtMs;
     Return (URL_toString
               (URL_set "policy" policy (URL_set "token" token parsedUrl)))).
Proof. intros H. unfold generateSignedUrl. rewrite H. reflexivity. Qed.

(** X11.  Two URLs with the same origin and path are signed by the same
    call of [jwt.sign]: whether signing succeeds, and which token is put on
    the URL, does not depend on the query parameters, the fragment or the
    credentials of the URL. *)
Theorem token_ignores_query
    w policy secret url1 url2 expiresAtMs parsedUrl1 parsedUrl2 :
  URL_new url1 = Return parsedUrl1 ->
  URL_new url2 = Return parsedUrl2 ->
  origin parsedUrl1 = origin parsedUrl2 ->
  pathname parsedUrl1 = pathname parsedUrl2 ->
  match
    generateSignedToken jwt_sign w secret
      (origin parsedUrl1 +:+ pathname parsedUrl1) expiresAtMs
  with
  | Return token =>
      generateSignedUrl jwt_sign URL_new URL_toString w policy secret url1
        expiresAtMs
      = Return (URL_toString
                  (URL_set "policy" policy (URL_set "token" token parsedUrl1)))
      /\
      generateSignedUrl jwt_sign URL_new URL_toString w policy secret url2
        expiresAtMs
      = Return (URL_toString
                  (URL_set "policy" policy (URL_set "token" token parsedUrl2)))
  | Throw e =>
      generateSignedUrl jwt_sign URL_new URL_toString w policy secret url1
        expiresAtMs = Throw e /\
      generateSignedUrl jwt_sign URL_new URL_toString w policy secret url2
        expiresAtMs = Throw e
  end.
Proof.
  intros H1 H2 Ho Hp.
  rewrite (generateSignedUrl_parsed _ _ _ _ _ _ H1).
  rewrite (generateSignedUrl_parsed _ _ _ _ _ _ H2).
  rewrite <- Ho, <- Hp.
  destruct (generateSignedToken _ _ _ _ _); auto.
Qed.

End MoreSigningProperties.

Lemma token_ignores_query_witness :
  generateSignedUrl ex_jwt_sign ex_URL_new2 ex_URL_toString tt "policy-1"
    "secret-1" ex_url (Num (Fin 5999))
  = Return (ex_URL_toString
              (URL_set "policy" "policy-1"
                 (URL_set "token"
                    "HS256.https://cdn.example.com/a/b.jpg.secret-1"
                    ex_parsedUrl)))
  /\
  generateSignedUrl ex_jwt_sign ex_URL_new2 ex_URL_toString tt "policy-1"
    "secret-1" ex_url2 (Num (Fin 5999))
  = Return (ex_URL_toString
              (URL_set "policy" "policy-1"
                 (URL_set "token"
                    "HS256.https://cdn.example.com/a/b.jpg.secret-1"
                    ex_parsedUrl2))).
Proof.
  exact (token_ignores_query unit ex_jwt_sign ex_URL_new2 ex_URL_toString tt
           "policy-1" "secret-1" ex_url ex_url2 (Num (Fin 5999))
           ex_parsedUrl ex_parsedUrl2 eq_refl eq_refl eq_refl eq_refl).
Defined.

(** ** Signing a URL again *)

Lemma filter_ne_idemp name (l : list (string * string)) :
  filter (fun kv => kv.1 <> name) (filter (fun kv => kv.1 <> name) l)
  = filter (fun kv => kv.1 <> name) l.
Proof.
  induction l as [|[k v] l IH]; [reflexivity|].
  rewrite (filter_cons _ (k, v)). simpl.
  destruct (decide (k <> name)) as [Hk|Hk]; [|exact IH].
  rewrite filter_cons. simpl. rewrite decide_True by exact Hk.
  rewrite IH. reflexivity.
Qed.

Lemma filter_ne_comm a b (l : list (string * string)) :
  filter (fun kv => kv.1 <> a) (filter (fun kv => kv.1 <> b) l)
  = filter (fun kv => kv.1 <> b) (filter (fun kv => kv.1 <> a) l).
Proof.
  induction l as [|[k v] l IH]; [reflexivity|].
  rewrite (filter_cons (fun kv => kv.1 <> b) (k, v)).
  rewrite (filter_cons (fun kv => kv.1 <> a) (k, v)). simpl.
  destruct (decide (k <> b)) as [Hb|Hb], (decide (k <> a)) as [Ha|Ha];
    rewrite ?filter_cons; simpl;
    rewrite ?(decide_True _ _ Ha), ?(decide_True _ _ Hb),
            ?(decide_False _ _ Ha), ?(decide_False _ _ Hb), IH;
    reflexivity.
Qed.

(** Setting a name again replaces the value that was set. *)
Lemma searchParams_set_twice name val val' l :
  searchParams_set name val' (searchParams_set name val l)
  = searchParams_set name val' l.
Proof.
  induction l as [|[k v] l IH]; simpl.
  - rewrite decide_True by reflexivity. reflexivity.
  - destruct (decide (k = name)) as [->|Hk]; simpl.
    + rewrite decide_True by reflexivity. rewrite filter_ne_idemp.
      reflexivity.
    + rewrite decide_False by exact Hk. rewrite IH. reflexivity.
Qed.

(** Removing the tuples of one name and setting another name commute. *)
Lemma filter_ne_searchParams_set a b val l :
  a <> b ->
  filter (fun kv => kv.1 <> b) (searchParams_set a val l)
  = searchParams_set a val (filter (fun kv => kv.1 <> b) l).
Proof.
  intros Hab. induction l as [|[k v] l IH]; simpl.
  - rewrite filter_cons. simpl. rewrite decide_True by exact Hab. reflexivity.
  - destruct (decide (k = a)) as [->|Hka].
    + rewrite !filter_cons. simpl. rewrite !decide_True by exact Hab. simpl.
      rewrite decide_True by reflexivity. rewrite filter_ne_comm. reflexivity.
    + rewrite !filter_cons. simpl.
      destruct (decide (k <> b)) as [Hkb|Hkb]; simpl.
      * rewrite decide_False by exact Hka. rewrite IH. reflexivity.
      * exact IH.
Qed.

Lemma searchParams_set_interleaved a b x x' y l :
  a <> b ->
  searchParams_set a x' (searchParams_set b y (searchParams_set a x l))
  = searchParams_set b y (searchParams_set a x' l).
Proof.
  intros Hab. induction l as [|[k v] l IH]; simpl.
  - rewrite decide_False by exact Hab. simpl.
    rewrite !decide_True by reflexivity. rewrite decide_False by exact Hab.
    rewrite filter_cons. simpl. rewrite decide_True by congruence.
    reflexivity.
  - destruct (decide (k = a)) as [->|Hka]; simpl.
    + rewrite !decide_False by exact Hab. simpl.
      rewrite decide_True by reflexivity.
      rewrite filter_ne_searchParams_set by congruence.
      rewrite filter_ne_idemp. reflexivity.
    + destruct (decide (k = b)) as [->|Hkb]; simpl.
      * rewrite decide_False by exact Hka.
        rewrite !filter_ne_searchParams_set by exact Hab.
        rewrite searchParams_set_twice. reflexivity.
      * rewrite decide_False by exact Hka. rewrite IH. reflexivity.
Qed.

(** Setting token and policy on a URL that carries them replaces them
    where they stand. *)
Lemma URL_set_token_policy_twice token policy token' policy' u :
  URL_set "policy" policy'
    (URL_set "token" token'
       (URL_set "policy" policy (URL_set "token" token u)))
  = URL_set "policy" policy' (URL_set "token" token' u).
Proof.
  unfold URL_set. simpl. f_equal.
  rewrite (searchParams_set_interleaved "token" "policy") by discriminate.
  apply searchParams_set_twice.
Qed.

Section Resigning.

Variable World : Type.
Variable jwt_sign : World -> Payload -> string -> SignOptions -> completion string.
Variable URL_new : string -> completion URL.
Variable URL_toString : URL -> string.

(** X12.  Signing again the URL that [generateSignedUrl] returned gives
    what signing the original URL gives (the same URL, or the same error):
    the old token and policy are replaced where they stand and nothing
    piles up.  This needs the signed URL to parse back to what was
    serialized, as the platform's parser and serializer do. *)
Theorem resigning_replaces_token_and_policy
    w policy secret expiresAtMs w' policy' secret' expiresAtMs'
    url parsedUrl token :
  URL_new url = Return parsedUrl ->
  generateSignedToken jwt_sign w secret
    (origin parsedUrl +:+ pathname parsedUrl) expiresAtMs = Return token ->
  URL_new (URL_toString
             (URL_set "policy" policy (URL_set "token" token parsedUrl)))
  = Return (URL_set "policy" policy (URL_set "token" token parsedUrl)) ->
  exists signedUrl,
    generateSignedUrl jwt_sign URL_new URL_toString w policy secret url
      expiresAtMs = Return signedUrl /\
    generateSignedUrl jwt_sign URL_new URL_toString w' policy' secret'
      signedUrl expiresAtMs'
    = generateSignedUrl jwt_sign URL_new URL_toString w' policy' secret'
        url expiresAtMs'.
Proof.
  intros Hparse Htoken Hround.
  eexists. split.
  - unfold generateSignedUrl. rewrite Hparse. simpl. rewrite Htoken.
    reflexivity.
  - unfold generateSignedUrl. rewrite Hround, Hparse. simpl.
    destruct (generateSignedToken jwt_sign w' secret' _ expiresAtMs')
      as [token'|err]; simpl; [|reflexivity].
    rewrite URL_set_token_policy_twice. reflexivity.
Qed.

End Resigning.

Lemma resigning_replaces_token_and_policy_witness :
  exists signedUrl,
    generateSignedUrl ex_jwt_sign ex_URL_new3 ex_URL_toString tt "policy-1"
      "secret-1" ex_url (Num (Fin 5999)) = Return signedUrl /\
    generateSignedUrl ex_jwt_sign ex_URL_new3 ex_URL_toString tt "policy-2"
      "secret-2" signedUrl (Num (Fin 7999))
    = generateSignedUrl ex_jwt_sign ex_URL_new3 ex_URL_toString tt "policy-2"
        "secret-2" ex_url (Num (Fin 7999)).
Proof.
  apply (resigning_replaces_token_and_policy unit ex_jwt_sign ex_URL_new3
           ex_URL_toString tt "policy-1" "secret-1" (Num (Fin 5999)) tt
           "policy-2" "secret-2" (Num (Fin 7999)) ex_url ex_parsedUrl
           "HS256.https://cdn.example.com/a/b.jpg.secret-1").
  - reflexivity.
  - reflexivity.
  - reflexivity.
Defined.

(** The scenario signed twice. *)
Example ex_resigned_url :
  generateSignedUrl ex_jwt_sign ex_URL_new3 ex_URL_toString tt "policy-2"
    "secret-2" (ex_URL_toString ex_signedUrl) (Num (Fin 7999))
  = Return ("https://cdn.example.com/a/b.jpg?w=200"
            +:+ "&token=HS256.https://cdn.example.com/a/b.jpg.secret-2"
            +:+ "&policy=policy-2").
Proof. reflexivity. Qed.

(** ** The handler of [server.js] *)

Lemma searchParams_set_absent name val (l : list (string * string)) :
  name ∉ l.*1 -> searchParams_set name val l = l ++ [(name, val)].
Proof.
  induction l as [|[k v] l IH]; intros Hnot; simpl; [reflexivity|].
  simpl in Hnot. apply not_elem_of_cons in Hnot as [Hne Hnot].
  rewrite decide_False by congruence. rewrite IH by exact Hnot. reflexivity.
Qed.

Lemma foldl_URL_append key values u :
  foldl (fun u value => URL_append key value u) u values
  = {| origin := origin u;
       userinfo := userinfo u;
       pathname := pathname u;
       searchParams := searchParams u ++ ((fun v => (key, v)) <$> values);
       hash := hash u |}.
Proof.
  revert u. induction values as [|v values IH]; intros u; simpl.
  - rewrite app_nil_r. destruct u; reflexivity.
  - rewrite IH. simpl. rewrite <- app_assoc. reflexivity.
Qed.

(** The loop writes the query parameters only. *)
Lemma setQueryParams_rest query u :
  origin (setQueryParams query u) = origin u /\
  userinfo (setQueryParams query u) = userinfo u /\
  pathname (setQueryParams query u) = pathname u /\
  hash (setQueryParams query u) = hash u.
Proof.
  revert u. induction query as [|[key [v|vs]] rest IH]; intros u; simpl.
  - auto.
  - destruct (IH (URL_set key v u)) as (-> & -> & -> & ->). auto.
  - destruct (IH (foldl (fun u value => URL_append key value u) u vs))
      as (-> & -> & -> & ->).
    rewrite foldl_URL_append. auto.
Qed.

Lemma setQueryParams_tuples query u :
  NoDup query.*1 ->
  (forall key, key ∈ query.*1 -> key ∉ (searchParams u).*1) ->
  searchParams (setQueryParams query u) = searchParams u ++ query_tuples query.
Proof.
  revert u. induction query as [|[key val] rest IH]; intros u Hnd Hfresh.
  - simpl. rewrite app_nil_r. reflexivity.
  - simpl in Hnd. apply NoDup_cons in Hnd as [Hkey Hnd].
    assert (Hk : key ∉ (searchParams u).*1).
    { apply Hfresh. simpl. left. }
    assert (Hrest : forall k, k ∈ rest.*1 -> k ∉ (searchParams u).*1).
    { intros k Hin. apply Hfresh. simpl. right. exact Hin. }
    unfold query_tuples. rewrite bind_cons. fold (query_tuples rest).
    destruct val as [v|vs]; simpl.
    + rewrite IH; [|exact Hnd|].
      * simpl. rewrite searchParams_set_absent by exact Hk.
        rewrite <- app_assoc. reflexivity.
      * intros k Hin. simpl. rewrite searchParams_set_absent by exact Hk.
        rewrite fmap_app. simpl. intros Hk'.
        apply elem_of_app in Hk' as [Hk'|Hk'].
        -- exact (Hrest k Hin Hk').
        -- apply list_elem_of_singleton in Hk'. subst k. exact (Hkey Hin).
    + rewrite IH; [|exact Hnd|].
      * rewrite foldl_URL_append. simpl. rewrite <- app_assoc. reflexivity.
      * intros k Hin. rewrite foldl_URL_append. simpl.
        rewrite fmap_app. intros Hk'.
        apply elem_of_app in Hk' as [Hk'|Hk'].
        -- exact (Hrest k Hin Hk').
        -- rewrite <- list_fmap_compose in Hk'.
           apply list_elem_of_fmap in Hk' as (v & -> & _). simpl in Hkey.
           contradiction.
Qed.

Lemma query_is_forwarded_lemma query u :
  NoDup query.*1 ->
  searchParams u = [] ->
  searchParams (setQueryParams query u) = query_tuples query /\
  origin (setQueryParams query u) = origin u /\
  pathname (setQueryParams query u) = pathname u.
Proof.
  intros Hnd Hempty. split.
  - rewrite setQueryParams_tuples; [|exact Hnd|].
    + rewrite Hempty. reflexivity.
    + intros key _. rewrite Hempty. simpl. apply not_elem_of_nil.
  - destruct (setQueryParams_rest query u) as (Ho & _ & Hp & _). auto.
Qed.

(** X15.  The handler's loop copies the query of the request onto the
    URL it builds: when the URL parsed from the path has no parameters of
    its own, the parameters are the name and value pairs of [req.query] in
    their order, with every array spread into one pair per element, and
    origin, path and the rest of the URL are untouched. *)
Theorem query_is_forwarded query u :
  NoDup query.*1 ->
  searchParams u = [] ->
  searchParams (setQueryParams query u) = query_tuples query /\
  origin (setQueryParams query u) = origin u /\
  pathname (setQueryParams query u) = pathname u.
Proof. exact (query_is_forwarded_lemma query u). Qed.

Lemma query_is_forwarded_witness :
  searchParams (setQueryParams (req_query ex_req) ex_pathUrl)
  = query_tuples (req_query ex_req) /\
  origin (setQueryParams (req_query ex_req) ex_pathUrl) = origin ex_pathUrl /\
  pathname (setQueryParams (req_query ex_req) ex_pathUrl)
  = pathname ex_pathUrl.
Proof.
  apply (query_is_forwarded (req_query ex_req) ex_pathUrl).
  - apply (bool_decide_unpack (NoDup (req_query ex_req).*1)).
    vm_compute. exact I.
  - reflexivity.
Defined.

Example ex_unsignedUrl_params :
  searchParams ex_unsignedUrl
  = [("w", "200"); ("token", "old"); ("fm", "jpg"); ("fm", "webp")] /\
  ex_URL_toString ex_unsignedUrl
  = "https://images.secure.ctfassets.net/sp1/a/b.jpg"
    +:+ "?w=200&token=old&fm=jpg&fm=webp".
Proof. split; reflexivity. Qed.

Section ServerProperties.

Variable World : Type.
Variable jwt_sign : World -> Payload -> string -> SignOptions -> completion string.
Variable URL_new : string -> completion URL.
Variable URL_new_base : string -> string -> completion URL.
Variable URL_toString : URL -> string.
Variables CONTENTFUL_API_HOST ACCESS_TOKEN SPACE_ID : option string.
Variable CONTENTFUL_ENVIRONMENT_ID : option string.

(** X13.  What the client sends never reaches the authority: a request for
    another space than the configured one is answered with 404 and leaves
    the state as it was; any request makes the handler send at most one
    request to the authority, which is the one for the configured host,
    token, space and environment with the expiry [now' + 48h]; and the
    handler changes the cache under the key of that scope only. *)
Theorem handler_asks_only_for_configured_scope subdomain now now' req s :
  (Some (req_spaceId req) <> SPACE_ID ->
   handler_start URL_new_base URL_toString CONTENTFUL_API_HOST ACCESS_TOKEN
     SPACE_ID CONTENTFUL_ENVIRONMENT_ID subdomain now now' req s
   = (Done (SendStatus 404), s)) /\
  (network
     (handler_start URL_new_base URL_toString CONTENTFUL_API_HOST ACCESS_TOKEN
        SPACE_ID CONTENTFUL_ENVIRONMENT_ID subdomain now now' req s).2
   = network s \/
   network
     (handler_start URL_new_base URL_toString CONTENTFUL_API_HOST ACCESS_TOKEN
        SPACE_ID CONTENTFUL_ENVIRONMENT_ID subdomain now now' req s).2
   = network s ++
     [createAssetKey_request now' (template CONTENTFUL_API_HOST)
        (template ACCESS_TOKEN) (template SPACE_ID)
        (ENVIRONMENT_ID CONTENTFUL_ENVIRONMENT_ID)
        (Num (Fin (now' + MAX_VALIDITY_MS)))]) /\
  (forall key,
     key <> cacheKey_of (template CONTENTFUL_API_HOST) (template SPACE_ID)
              (ENVIRONMENT_ID CONTENTFUL_ENVIRONMENT_ID) ->
     assetKeyCache
       (handler_start URL_new_base URL_toString CONTENTFUL_API_HOST
          ACCESS_TOKEN SPACE_ID CONTENTFUL_ENVIRONMENT_ID subdomain now now'
          req s).2 !! key
     = assetKeyCache s !! key).
Proof.
  unfold handler_start, signUrl_call.
  destruct (decide (Some (req_spaceId req) = SPACE_ID)) as [Heq|Hne].
  - split; [intros Hne; contradiction|].
    destruct (_ ← URL_new_base _ _; _) as [unsignedUrl|err]; simpl; [|auto].
    pose proof (createCachedAssetKey_cases now' (template CONTENTFUL_API_HOST)
                  (template ACCESS_TOKEN) (template SPACE_ID)
                  (ENVIRONMENT_ID CONTENTFUL_ENVIRONMENT_ID)
                  (Num (Fin (now + URL_LIFETIME))) s) as Hcases.
    destruct (createCachedAssetKey _ _ _ _ _ _ _) as [[p|err] s'];
      destruct Hcases as [[-> _]|[-> _]]; simpl; split; auto.
    + right. unfold network. simpl. rewrite fmap_app. reflexivity.
    + intros key Hkey. apply lookup_insert_ne. congruence.
    + right. unfold network. simpl. rewrite fmap_app. reflexivity.
    + intros key Hkey. apply lookup_insert_ne. congruence.
  - simpl. auto.
Qed.

(** X14.  When the clock did not go back between the handler and the
    cache, a request for the configured space whose path parses always
    gets to await an asset key: the range error cannot occur.  The promise
    awaited is that of the entry cached for the configured scope after the
    call, and that entry lives at least until the expiry [now + 10 s] of
    the URL to sign.  An entry that was cached and lives that long is
    reused without a request to the authority. *)
Theorem handler_awaits_long_enough_key subdomain now now' req s unsignedUrl :
  Some (req_spaceId req) = SPACE_ID ->
  URL_new_base (req_path req)
    ("https://" +:+ subdomain +:+ ".secure.ctfassets.net")
  = Return unsignedUrl ->
  now <= now' ->
  exists p s' item,
    handler_start URL_new_base URL_toString CONTENTFUL_API_HOST ACCESS_TOKEN
      SPACE_ID CONTENTFUL_ENVIRONMENT_ID subdomain now now' req s
    = (Suspended p
         (URL_toString (setQueryParams (req_query req) unsignedUrl))
         (Num (Fin (now + URL_LIFETIME))),
       s') /\
    assetKeyCache s' !! cacheKey_of (template CONTENTFUL_API_HOST)
                          (template SPACE_ID)
                          (ENVIRONMENT_ID CONTENTFUL_ENVIRONMENT_ID)
    = Some item /\
    promise item = p /\
    now + URL_LIFETIME <= expiresAtMs item /\
    (forall old,
       assetKeyCache s !! cacheKey_of (template CONTENTFUL_API_HOST)
                            (template SPACE_ID)
                            (ENVIRONMENT_ID CONTENTFUL_ENVIRONMENT_ID)
       = Some old ->
       now + URL_LIFETIME <= expiresAtMs old ->
       s' = s /\ item = old).
Proof.
  intros Hspace Hparse Hclock.
  unfold handler_start, signUrl_call.
  rewrite decide_True by exact Hspace. rewrite Hparse. simpl.
  assert (Hrange :
    js_gt (Num (Fin (now + URL_LIFETIME)))
          (Num (Fin (now' + MAX_VALIDITY_MS))) = false).
  { unfold js_gt. simpl. apply Z.ltb_ge.
    unfold URL_LIFETIME, MAX_VALIDITY_MS. lia. }
  unfold createCachedAssetKey.
  destruct (assetKeyCache s !! _) as [old|] eqn:Hc.
  - destruct (js_lt _ _) eqn:Hlt.
    + rewrite (fetchAndInstall_installs _ _ _ _ _ _ _ Hrange).
      eexists _, _, _. split; [reflexivity|]. simpl.
      rewrite lookup_insert_eq. split; [reflexivity|]. simpl.
      split; [reflexivity|]. split.
      * unfold URL_LIFETIME, MAX_VALIDITY_MS. lia.
      * intros old' [= <-] Hlong. unfold js_lt in Hlt. simpl in Hlt.
        apply Z.ltb_lt in Hlt. lia.
    + exists (promise old), s, old. split; [reflexivity|].
      split; [exact Hc|]. split; [reflexivity|]. split.
      * unfold js_lt in Hlt. simpl in Hlt. apply Z.ltb_ge in Hlt. exact Hlt.
      * intros old' [= <-] _. auto.
  - rewrite (fetchAndInstall_installs _ _ _ _ _ _ _ Hrange).
    eexists _, _, _. split; [reflexivity|]. simpl.
    rewrite lookup_insert_eq. split; [reflexivity|]. simpl.
    split; [reflexivity|]. split.
    + unfold URL_LIFETIME, MAX_VALIDITY_MS. lia.
    + intros old' Hold. discriminate.
Qed.

(** X16.  When the asset key arrives and the token is signed, the handler
    redirects to the serialization of a URL with the origin and path of
    the URL it built from the request, the query parameters of the request
    other than [token] and [policy], and exactly one [token] and one
    [policy] parameter, which carry the new token and the policy of the
    key: a [token] or [policy] sent by the client is replaced.  When the
    asset key does not arrive the answer is 500. *)
Theorem handler_redirects_to_signed_url
    w key req pathUrl expiresAtMs token :
  NoDup (req_query req).*1 ->
  searchParams pathUrl = [] ->
  URL_new (URL_toString (setQueryParams (req_query req) pathUrl))
  = Return (setQueryParams (req_query req) pathUrl) ->
  generateSignedToken jwt_sign w (secret key)
    (origin pathUrl +:+ pathname pathUrl) expiresAtMs = Return token ->
  (exists signedUrl,
     handler_resume jwt_sign URL_new URL_toString w (Return key)
       (URL_toString (setQueryParams (req_query req) pathUrl)) expiresAtMs
     = Redirect (URL_toString signedUrl) /\
     origin signedUrl = origin pathUrl /\
     pathname signedUrl = pathname pathUrl /\
     params_except ["token"; "policy"] (searchParams signedUrl)
     = params_except ["token"; "policy"] (query_tuples (req_query req)) /\
     params_named "token" (searchParams signedUrl) = [("token", token)] /\
     params_named "policy" (searchParams signedUrl)
     = [("policy", policy key)]) /\
  (forall err url,
     handler_resume jwt_sign URL_new URL_toString w (Throw err) url
       expiresAtMs = SendStatus 500).
Proof.
  intros Hnd Hempty Hparse Htoken.
  destruct (query_is_forwarded_lemma (req_query req) pathUrl Hnd Hempty)
    as (Hq & Ho & Hp).
  split; [|reflexivity].
  exists (URL_set "policy" (policy key)
            (URL_set "token" token (setQueryParams (req_query req) pathUrl))).
  split.
  - unfold handler_resume, signUrl_resume, generateSignedUrl. simpl.
    rewrite Hparse. simpl. rewrite Ho, Hp, Htoken. reflexivity.
  - simpl. rewrite Ho, Hp, <- Hq. repeat split.
    + rewrite !searchParams_set_except; [reflexivity| |];
        apply list_elem_of_In; simpl; auto.
    + rewrite searchParams_set_named_other by discriminate.
      apply searchParams_set_named.
    + apply searchParams_set_named.
Qed.

End ServerProperties.

Lemma handler_awaits_long_enough_key_witness :
  exists p s' item,
    handler_start ex_URL_new_base ex_URL_toString (Some ex_host)
      (Some ex_token) (Some ex_space) None "images" 20 21 ex_req ex_state1
    = (Suspended p
         (ex_URL_toString (setQueryParams (req_query ex_req) ex_pathUrl))
         (Num (Fin (20 + URL_LIFETIME))),
       s') /\
    assetKeyCache s' !! cacheKey_of (template (Some ex_host))
                          (template (Some ex_space)) (ENVIRONMENT_ID None)
    = Some item /\
    promise item = p /\
    20 + URL_LIFETIME <= expiresAtMs item /\
    (forall old,
       assetKeyCache ex_state1 !! cacheKey_of (template (Some ex_host))
                                    (template (Some ex_space))
                                    (ENVIRONMENT_ID None)
       = Some old ->
       20 + URL_LIFETIME <= expiresAtMs old ->
       s' = ex_state1 /\ item = old).
Proof.
  apply (handler_awaits_long_enough_key ex_URL_new_base ex_URL_toString
           (Some ex_host) (Some ex_token) (Some ex_space) None "images" 20 21
           ex_req ex_state1 ex_pathUrl).
  - reflexivity.
  - reflexivity.
  - lia.
Defined.

Lemma handler_redirects_to_signed_url_witness :
  (exists signedUrl,
     handler_resume ex_jwt_sign ex_server_URL_new ex_URL_toString tt
       (Return ex_assetKey)
       (ex_URL_toString (setQueryParams (req_query ex_req) ex_pathUrl))
       (Num (Fin 10020))
     = Redirect (ex_URL_toString signedUrl) /\
     origin signedUrl = origin ex_pathUrl /\
     pathname signedUrl = pathname ex_pathUrl /\
     params_except ["token"; "policy"] (searchParams signedUrl)
     = params_except ["token"; "policy"] (query_tuples (req_query ex_req)) /\
     params_named "token" (searchParams signedUrl)
     = [("token",
         "HS256.https://images.secure.ctfassets.net/sp1/a/b.jpg.secret-1")] /\
     params_named "policy" (searchParams signedUrl)
     = [("policy", policy ex_assetKey)]) /\
  (forall err url,
     handler_resume ex_jwt_sign ex_server_URL_new ex_URL_toString tt
       (Throw err) url (Num (Fin 10020)) = SendStatus 500).
Proof.
  apply (handler_redirects_to_signed_url unit ex_jwt_sign ex_server_URL_new
           ex_URL_toString tt ex_assetKey ex_req ex_pathUrl (Num (Fin 10020))
           "HS256.https://images.secure.ctfassets.net/sp1/a/b.jpg.secret-1").
  - apply (bool_decide_unpack (NoDup (req_query ex_req).*1)).
    vm_compute. exact I.
  - reflexivity.
  - reflexivity.
  - reflexivity.
Defined.

(** The scenario, from the request to the redirect. *)
Example ex_handler_redirect :
  handler_start ex_URL_new_base ex_URL_toString (Some ex_host)
    (Some ex_token) (Some ex_space) None "images" 20 21 ex_req ex_state1
  = (Suspended 0 (ex_URL_toString ex_unsignedUrl) (Num (Fin 10020)),
     ex_state1) /\
  handler_resume ex_jwt_sign ex_server_URL_new ex_URL_toString tt
    (Return ex_assetKey) (ex_URL_toString ex_unsignedUrl) (Num (Fin 10020))
  = Redirect
      ("https://images.secure.ctfassets.net/sp1/a/b.jpg?w=200"
       +:+ "&token=HS256.https://images.secure.ctfassets.net/sp1/a/b.jpg"
       +:+ ".secret-1&fm=jpg&fm=webp&policy=policy-1") /\
  handler_start ex_URL_new_base ex_URL_toString (Some ex_host)
    (Some ex_token) (Some ex_space) None "images" 20 21
    {| req_path := "/other/a/b.jpg"; req_spaceId := "other";
       req_query := [] |} ex_state1
  = (Done (SendStatus 404), ex_state1) /\
  handler_start ex_URL_new_base ex_URL_toString (Some ex_host)
    (Some ex_token) None None "images" 20 21 ex_req ex_state1
  = (Done (SendStatus 404), ex_state1).
Proof. repeat split. Qed.

(** ** After a failure *)

(** X17.  When the request of the fetch whose entry is cached fails, the
    entry is gone, and the next call for that scope that asks for no more
    than 48h from its [now] starts afresh: it sends exactly one new request
    and returns a new, pending promise. *)
Theorem failed_current_fetch_is_retried
    now s p cell o err item now' host accessToken spaceId environmentId
    minExpiresAtMs :
  reachable now s ->
  promises s !! p = Some cell ->
  settled cell = Pending ->
  createAssetKey_settle o = Throw err ->
  assetKeyCache s !! cacheKey_of host spaceId environmentId = Some item ->
  promise item = p ->
  js_gt minExpiresAtMs (Num (Fin (now' + MAX_VALIDITY_MS))) = false ->
  assetKeyCache (settle p o s) !! cacheKey_of host spaceId environmentId
  = None /\
  createCachedAssetKey now' host accessToken spaceId environmentId
    minExpiresAtMs (settle p o s)
  = (Return (length (promises s)),
     installed now' host accessToken spaceId environmentId (settle p o s)) /\
  network (installed now' host accessToken spaceId environmentId
             (settle p o s))
  = network s ++
    [createAssetKey_request now' host accessToken spaceId environmentId
       (Num (Fin (now' + MAX_VALIDITY_MS)))] /\
  await (installed now' host accessToken spaceId environmentId (settle p o s))
        (length (promises s)) = None.
Proof.
  intros Hr Hp Hst Ho Hc Hitem Hmin. apply reachable_consistent in Hr.
  assert (Hlen : length (promises (settle p o s)) = length (promises s)).
  { pose proof (settle_network p o s) as Hn. unfold network in Hn.
    apply (f_equal length) in Hn. rewrite !length_fmap in Hn. exact Hn. }
  assert (Hgone :
    assetKeyCache (settle p o s) !! cacheKey_of host spaceId environmentId
    = None).
  { rewrite (settle_pending_throw p o s cell err Hp Hst Ho). simpl.
    rewrite catch_handler_lookup, Hc.
    destruct (cached_item _ _ Hr _ _ Hc) as [_ (c & Hpc & Href & Hkey & _)].
    rewrite Hitem in Hpc. assert (c = cell) as -> by congruence.
    rewrite decide_True; [reflexivity|]. split; congruence. }
  split; [exact Hgone|]. split; [|split].
  - unfold createCachedAssetKey. rewrite Hgone.
    rewrite (fetchAndInstall_installs _ _ _ _ _ _ _ Hmin), Hlen. reflexivity.
  - unfold network at 1. simpl. rewrite fmap_app. simpl.
    fold (network (settle p o s)). rewrite settle_network. reflexivity.
  - unfold await. simpl. rewrite <- Hlen.
    rewrite list_lookup_middle by reflexivity. reflexivity.
Qed.

Lemma failed_current_fetch_is_retried_witness :
  assetKeyCache (settle 1 ex_forbidden ex_state2)
    !! cacheKey_of ex_host ex_space ex_env = None /\
  createCachedAssetKey 20 ex_host ex_token ex_space ex_env (Num (Fin 30))
    (settle 1 ex_forbidden ex_state2)
  = (Return (length (promises ex_state2)),
     installed 20 ex_host ex_token ex_space ex_env
       (settle 1 ex_forbidden ex_state2)) /\
  network (installed 20 ex_host ex_token ex_space ex_env
             (settle 1 ex_forbidden ex_state2))
  = network ex_state2 ++
    [createAssetKey_request 20 ex_host ex_token ex_space ex_env
       (Num (Fin (20 + MAX_VALIDITY_MS)))] /\
  await (installed 20 ex_host ex_token ex_space ex_env
           (settle 1 ex_forbidden ex_state2))
        (length (promises ex_state2)) = None.
Proof.
  apply (failed_current_fetch_is_retried 10 ex_state2 1%nat
           {| request := createAssetKey_request 10 ex_host ex_token ex_space
                           ex_env (Num (Fin (10 + MAX_VALIDITY_MS)));
              catch_cacheKey := ex_key;
              catch_cacheItem := 1;
              settled := Pending |}
           ex_forbidden (FailedToCreateAssetKey 403) ex_item2 20 ex_host
           ex_token ex_space ex_env (Num (Fin 30))).
  - exact ex_state2_reachable.
  - reflexivity.
  - reflexivity.
  - reflexivity.
  - reflexivity.
  - reflexivity.
  - reflexivity.
Defined.
